(** * program-admin: the pure helpers of [program_admin/util.py]

    A shallow embedding of the four pure functions of [util.py]

    - [sort_mapping_account_keys]  (the linked-list reconstructor),
    - [apply_overrides]            (the permission resolver),
    - [get_actual_signers]         (the signer computation of the batcher),
    - [encode_product_metadata]    (the metadata encoder),

    and of the [restore_links] command of [cli.py], which walks the mapping
    list forwards, followed by the properties the specification states about
    them and by further properties read off the code.

    Conventions.
    - A [PublicKey] is a 32-byte value; it is identified with the integer
      [PublicKey(n)] is built from, so [PublicKey(0)] is [0].  Python compares
      and hashes public keys by their bytes, and a [PublicKey] object is always
      truthy (the class defines neither [__bool__] nor [__len__]), so
      [not last_key] and [previous_keys.get(current)] only test for [None].
    - A Python [str] is the list of its code points, [bytes] the list of its
      byte values.
    - A dict that is only looked up is a [gmap]; a dict whose iteration order
      is observable (the metadata mapping) is the list of its items.
    - A raised exception is a value: [Raised e]. *)

From Stdlib Require Import NArith ZArith Lia.
From stdpp Require Import gmap strings list fin_maps pretty.

Open Scope N_scope.

(* ===================================================================== *)
(** * Part I: the program                                                 *)
(* ===================================================================== *)

(** ** Exceptions and results *)

Inductive exception : Type :=
  | RuntimeError (msg : string)
  | OverflowError
  | UnicodeEncodeError.

Inductive result (A : Type) : Type :=
  | Returned (a : A)
  | Raised (e : exception).

Arguments Returned {A} a.
Arguments Raised {A} e.

#[global] Instance result_ret : MRet result := @Returned.
#[global] Instance result_bind : MBind result := λ A B f r,
  match r with
  | Returned a => f a
  | Raised e => Raised e
  end.

(** ** Account keys and mapping accounts *)

Abbreviation PublicKey := N (only parsing).

(** [PythMappingData] and [PythMappingAccount] of [program_admin.types], with
    the fields [util.py] and the data model name. *)
Record PythMappingData : Type := {
  next_mapping_account_key : PublicKey;
  product_account_keys : list PublicKey
}.

Record PythMappingAccount : Type := {
  public_key : PublicKey;
  data : PythMappingData
}.

(** ** [sort_mapping_account_keys] *)

(** The [for account in accounts] loop: one step on the pair
    [(previous_keys, last_key)]. *)
Definition scan_step (st : gmap N N * option N) (account : PythMappingAccount)
  : gmap N N * option N :=
  let '(previous_keys, last_key) := st in
  let this_key := public_key account in
  let next_key := next_mapping_account_key (data account) in
  let last_key := if decide (next_key = 0) then Some this_key else last_key in
  (<[next_key := this_key]> previous_keys, last_key).

Definition scan_accounts (accounts : list PythMappingAccount)
  : gmap N N * option N :=
  foldl scan_step (∅, None) accounts.

(** The [while len(accounts) != len(sorted_keys)] loop.  [n] is
    [len(accounts)]; every unfolding of the body consumes one unit of [fuel],
    and [None] means that the fuel ran out before the loop condition failed. *)
Fixpoint walk (fuel : nat) (n : nat) (previous_keys : gmap N N)
    (sorted_keys : list N) (current : N) : option (list N) :=
  if decide (n ≠ length sorted_keys) then
    match fuel with
    | O => None
    | S fuel =>
        let sorted_keys := current :: sorted_keys in
        let current :=
          match previous_keys !! current with
          | Some previous => previous
          | None => current
          end in
        walk fuel n previous_keys sorted_keys current
    end
  else Some sorted_keys.

Definition sort_mapping_account_keys (fuel : nat)
    (accounts : list PythMappingAccount) : option (result (list N)) :=
  match accounts with
  | [] => Some (Returned [])
  | _ =>
      let '(previous_keys, last_key) := scan_accounts accounts in
      match last_key with
      | None => Some (Raised (RuntimeError "The linked list has no end"))
      | Some last_key =>
          Returned <$> walk fuel (length accounts) previous_keys [] last_key
      end
  end.

(** ** [apply_overrides] *)

(** [key in network_overrides and not network_overrides[key]] *)
Definition revoked (network_overrides : gmap string bool) (key : string) : bool :=
  match network_overrides !! key with
  | Some flag => negb flag
  | None => false
  end.

Definition apply_overrides
    (ref_permissions : gmap string (gmap string (list string)))
    (ref_overrides : gmap string (gmap string bool))
    (network : string) : gmap string (gmap string (list string)) :=
  let network_overrides := default ∅ (ref_overrides !! network) in
  map_fold (λ key value overridden_permissions,
      if revoked network_overrides key
      then <[key := (λ _ : list string, []) <$> value]> overridden_permissions
      else <[key := value]> overridden_permissions)
    ∅ ref_permissions.

(** ** [get_actual_signers] *)

(** The parts of solana's [Keypair], [AccountMeta], [TransactionInstruction]
    and [Transaction] that the function reads. *)
Record Keypair : Type := {
  keypair_public_key : PublicKey;
  secret_key : list N
}.

Record AccountMeta : Type := {
  pubkey : PublicKey;
  is_signer : bool;
  is_writable : bool
}.

Record TransactionInstruction : Type := {
  keys : list AccountMeta;
  program_id : PublicKey;
  instruction_data : list N
}.

Record Transaction : Type := {
  instructions : list TransactionInstruction
}.

(** Python's builtin [any]. *)
Definition py_any (flags : list bool) : bool := existsb id flags.

Definition get_actual_signers (signers : list Keypair)
    (transaction : Transaction) : list Keypair :=
  foldl (λ actual_signers signer,
      let instruction_has_signer :=
        map (λ instruction,
               py_any (map (λ account,
                             (keypair_public_key signer =? pubkey account)
                             && is_signer account)
                          (keys instruction)))
            (instructions transaction) in
      if py_any instruction_has_signer
      then actual_signers ++ [signer]
      else actual_signers)
    [] signers.

(** ** [encode_product_metadata] *)

(** [str.encode("utf8")] on one code point.  Surrogates cannot be encoded;
    values from [0x110000] on are not code points of a [str]. *)
Definition utf8_char (c : N) : result (list N) :=
  if c <? 0x80 then Returned [c]
  else if c <? 0x800 then Returned [0xC0 + c / 0x40; 0x80 + c mod 0x40]
  else if c <? 0x10000 then
    if (0xD800 <=? c) && (c <=? 0xDFFF) then Raised UnicodeEncodeError
    else Returned [0xE0 + c / 0x1000; 0x80 + (c / 0x40) mod 0x40;
                   0x80 + c mod 0x40]
  else if c <? 0x110000 then
    Returned [0xF0 + c / 0x40000; 0x80 + (c / 0x1000) mod 0x40;
              0x80 + (c / 0x40) mod 0x40; 0x80 + c mod 0x40]
  else Raised UnicodeEncodeError.

Fixpoint str_encode (s : list N) : result (list N) :=
  match s with
  | [] => Returned []
  | c :: s =>
      char_bytes ← utf8_char c;
      rest ← str_encode s;
      mret (char_bytes ++ rest)
  end.

(** [int.to_bytes(1, byteorder="little")] on a length. *)
Definition to_bytes_1 (n : nat) : result (list N) :=
  if (n <=? 255)%nat then Returned [N.of_nat n] else Raised OverflowError.

(** The [for key, value in data.items()] loop, [buffer] being the
    accumulator. *)
Fixpoint encode_items (items : list (list N * list N)) (buffer : list N)
  : result (list N) :=
  match items with
  | [] => Returned buffer
  | (key, value) :: items =>
      key_bytes ← str_encode key;
      key_len ← to_bytes_1 (length key_bytes);
      value_bytes ← str_encode value;
      value_len ← to_bytes_1 (length value_bytes);
      encode_items items
        (buffer ++ (key_len ++ key_bytes ++ value_len ++ value_bytes))
  end.

Definition encode_product_metadata (data : list (list N * list N))
  : result (list N) :=
  encode_items data [].

(** ** The metadata decoder *)

(** Modelled from the spec: the decoder of product metadata, the inverse the
    round-trip property of the specification refers to.  Its code (the parser
    of product account data) is not part of [util.py].  The buffer is read as
    the specification lays it out, entry after entry, each entry being
    [len(key) ++ key_bytes ++ len(value) ++ value_bytes] with one-byte
    lengths; key and value are decoded as strict UTF-8 and stored in an
    insertion-ordered dict. *)

Definition continuation (b : N) : bool := (0x80 <=? b) && (b <? 0xC0).

(** [bytes.decode("utf8")]: [None] stands for [UnicodeDecodeError]
    (truncated or overlong sequences, stray continuation bytes, surrogates,
    values beyond [0x10FFFF]). *)
Fixpoint str_decode (bs : list N) : option (list N) :=
  match bs with
  | [] => Some []
  | b0 :: r0 =>
      if b0 <? 0x80 then cons b0 <$> str_decode r0
      else if b0 <? 0xC2 then None
      else if b0 <? 0xE0 then
        match r0 with
        | b1 :: r1 =>
            if continuation b1
            then cons ((b0 - 0xC0) * 0x40 + (b1 - 0x80)) <$> str_decode r1
            else None
        | _ => None
        end
      else if b0 <? 0xF0 then
        match r0 with
        | b1 :: b2 :: r2 =>
            let c := (b0 - 0xE0) * 0x1000 + (b1 - 0x80) * 0x40 + (b2 - 0x80) in
            if continuation b1 && continuation b2 && (0x800 <=? c)
               && negb ((0xD800 <=? c) && (c <=? 0xDFFF))
            then cons c <$> str_decode r2
            else None
        | _ => None
        end
      else if b0 <? 0xF5 then
        match r0 with
        | b1 :: b2 :: b3 :: r3 =>
            let c := (b0 - 0xF0) * 0x40000 + (b1 - 0x80) * 0x1000
                     + (b2 - 0x80) * 0x40 + (b3 - 0x80) in
            if continuation b1 && continuation b2 && continuation b3
               && (0x10000 <=? c) && (c <? 0x110000)
            then cons c <$> str_decode r3
            else None
        | _ => None
        end
      else None
  end.

(** [data[key] = value] on an insertion-ordered dict: a present key keeps its
    position, a new key goes last. *)
Fixpoint dict_set (data : list (list N * list N)) (key value : list N)
  : list (list N * list N) :=
  match data with
  | [] => [(key, value)]
  | (key', value') :: data =>
      if decide (key' = key) then (key', value) :: data
      else (key', value') :: dict_set data key value
  end.

(** One length-prefixed field: the field and the rest of the buffer. *)
Definition read_field (buffer : list N) : option (list N * list N) :=
  match buffer with
  | [] => None
  | len :: rest =>
      let n := N.to_nat len in
      if (n <=? length rest)%nat then Some (take n rest, drop n rest) else None
  end.

(** The entries of a buffer, in the order they are stored.  The outer [None]
    is lack of fuel, the inner one a malformed buffer. *)
Fixpoint parse_items (fuel : nat) (buffer : list N)
  : option (option (list (list N * list N))) :=
  match buffer with
  | [] => Some (Some [])
  | _ =>
      match fuel with
      | O => None
      | S fuel =>
          match read_field buffer with
          | None => Some None
          | Some (key_bytes, buffer) =>
              match read_field buffer with
              | None => Some None
              | Some (value_bytes, buffer) =>
                  match str_decode key_bytes, str_decode value_bytes with
                  | Some key, Some value =>
                      match parse_items fuel buffer with
                      | Some (Some items) => Some (Some ((key, value) :: items))
                      | failure => failure
                      end
                  | _, _ => Some None
                  end
              end
          end
      end
  end.

Definition decode_product_metadata (fuel : nat) (buffer : list N)
  : option (option (list (list N * list N))) :=
  match parse_items fuel buffer with
  | Some (Some items) =>
      Some (Some (foldl (λ data '(key, value), dict_set data key value)
                    [] items))
  | failure => failure
  end.

(** ** [restore_links] of [cli.py] *)

(** A reference product, as [restore_links] reads it: [product["metadata"]]. *)
Record ReferenceProduct : Type := {
  ref_metadata : gmap string string
}.

(** [PythProductData] and [PythProductAccount] of [program_admin.types], with
    the fields the command reads. *)
Record PythProductData : Type := {
  first_price_account_key : PublicKey;
  metadata : gmap string string
}.

Record PythProductAccount : Type := {
  product_data : PythProductData
}.

(** The [ProgramAdmin] object once its accounts are refreshed, through the
    three methods the command calls.  Their code is not part of [cli.py]:
    each is taken as it answers, [None] standing for a call that raises
    ([IndexError] in the case of [get_first_mapping_key], the only exception
    the command catches). *)
Record ProgramAdmin : Type := {
  get_first_mapping_key : option PublicKey;
  get_mapping_account : PublicKey → option PythMappingAccount;
  get_product_account : PublicKey → option PythProductAccount
}.

(** The names given to [restore_symlink]: [f"mapping_{counter}"],
    [f"product_{jump_symbol}"] and [f"price_{jump_symbol}"]. *)
Inductive link_name : Type :=
  | mapping_link (mapping_account_counter : nat)
  | product_link (jump_symbol : string)
  | price_link (jump_symbol : string).

(** The string an f-string evaluates to. *)
Definition link_file_name (name : link_name) : string :=
  match name with
  | mapping_link mapping_account_counter =>
      "mapping_" +:+ pretty mapping_account_counter
  | product_link jump_symbol => "product_" +:+ jump_symbol
  | price_link jump_symbol => "price_" +:+ jump_symbol
  end.

(** What ends the command early: a [KeyError] of a dict of strings, or the
    exception of an account method called on [key]. *)
Inductive cli_exception : Type :=
  | KeyError (key : string)
  | AccountError (key : PublicKey).

Inductive cli_outcome : Type :=
  | Completed
  | Exited (code : nat)
  | Crashed (e : cli_exception).

(** The loop [for jump_symbol, product in reference_products.items()], on
    the items of the dict, [jump_symbols] being the dict under
    construction. *)
Fixpoint invert_symbols (items : list (string * ReferenceProduct))
    (jump_symbols : gmap string string) : cli_exception + gmap string string :=
  match items with
  | [] => inr jump_symbols
  | (jump_symbol, product) :: items =>
      match ref_metadata product !! "symbol" with
      | None => inl (KeyError "symbol")
      | Some symbol =>
          invert_symbols items (<[symbol := jump_symbol]> jump_symbols)
      end
  end.

(** The loop [for product_key in mapping_account.data.product_account_keys].
    [links] is the list of the calls of [restore_symlink] made so far, each
    with its key and its name; the calls made before an exception stay. *)
Fixpoint restore_products (program_admin : ProgramAdmin)
    (jump_symbols : gmap string string) (product_keys : list N)
    (links : list (N * link_name))
  : list (N * link_name) * option cli_exception :=
  match product_keys with
  | [] => (links, None)
  | product_key :: product_keys =>
      match get_product_account program_admin product_key with
      | None => (links, Some (AccountError product_key))
      | Some product_account =>
          match metadata (product_data product_account) !! "symbol" with
          | None => (links, Some (KeyError "symbol"))
          | Some symbol =>
              match jump_symbols !! symbol with
              | None => (links, Some (KeyError symbol))
              | Some jump_symbol =>
                  let links := links ++ [(product_key, product_link jump_symbol)] in
                  let first_price :=
                    first_price_account_key (product_data product_account) in
                  let links :=
                    if decide (first_price ≠ 0)
                    then links ++ [(first_price, price_link jump_symbol)]
                    else links in
                  restore_products program_admin jump_symbols
                    product_keys links
              end
          end
      end
  end.

(** The loop [while mapping_key != PublicKey(0)]; [None] is lack of fuel. *)
Fixpoint restore_mappings (fuel : nat) (program_admin : ProgramAdmin)
    (jump_symbols : gmap string string) (mapping_key : N)
    (mapping_account_counter : nat) (links : list (N * link_name))
  : option (list (N * link_name) * cli_outcome) :=
  if decide (mapping_key ≠ 0) then
    match fuel with
    | O => None
    | S fuel =>
        match get_mapping_account program_admin mapping_key with
        | None => Some (links, Crashed (AccountError mapping_key))
        | Some mapping_account =>
            let links :=
              links ++ [(mapping_key, mapping_link mapping_account_counter)] in
            match restore_products program_admin jump_symbols
                    (product_account_keys (data mapping_account)) links with
            | (links, Some e) => Some (links, Crashed e)
            | (links, None) =>
                restore_mappings fuel program_admin jump_symbols
                  (next_mapping_account_key (data mapping_account))
                  (S mapping_account_counter) links
            end
        end
    end
  else Some (links, Completed).

Definition restore_links (fuel : nat) (program_admin : ProgramAdmin)
    (reference_products : list (string * ReferenceProduct))
  : option (list (N * link_name) * cli_outcome) :=
  match invert_symbols reference_products ∅ with
  | inl e => Some ([], Crashed e)
  | inr jump_symbols =>
      match get_first_mapping_key program_admin with
      | None => Some ([], Exited 1)
      | Some mapping_key =>
          restore_mappings fuel program_admin jump_symbols mapping_key 0 []
      end
  end.

(* ===================================================================== *)
(** * Part II: vocabulary of the specification                            *)
(* ===================================================================== *)

(** ** Mapping-account chains *)

Definition mapping_account (key next : N) (products : list N)
  : PythMappingAccount :=
  {| public_key := key;
     data := {| next_mapping_account_key := next;
                product_account_keys := products |} |}.

Definition next_key (account : PythMappingAccount) : N :=
  next_mapping_account_key (data account).

(** The [(key, next key)] pairs of a collection, in input order. *)
Definition links (accounts : list PythMappingAccount) : list (N * N) :=
  (λ account, (public_key account, next_key account)) <$> accounts.

(** The links of the chain [k1 → k2 → ... → kn → 0]. *)
Fixpoint chain_links (chain : list N) : list (N * N) :=
  match chain with
  | [] => []
  | key :: rest => (key, hd 0 rest) :: chain_links rest
  end.

(** The accounts whose next key is [key], in input order. *)
Definition pointing_to (key : N) (accounts : list PythMappingAccount)
  : list PythMappingAccount :=
  filter (λ account, next_key account = key) accounts.

(** A tail is an account whose next key is zero. *)
Definition has_tail (accounts : list PythMappingAccount) : Prop :=
  ∃ account, account ∈ accounts ∧ next_key account = 0.

(** One iteration of the backward walk on [(sorted_keys, current)]. *)
Definition step_back (previous_keys : gmap N N) (current : N) : N :=
  match previous_keys !! current with
  | Some previous => previous
  | None => current
  end.

Definition walk_step (previous_keys : gmap N N) (st : list N * N)
  : list N * N :=
  (st.2 :: st.1, step_back previous_keys st.2).

(** The state of the walk after [j] iterations from the tail [last_key]. *)
Definition walk_state (previous_keys : gmap N N) (j : nat) (last_key : N)
  : list N * N :=
  Nat.iter j (walk_step previous_keys) ([], last_key).

(** The walk is broken when, with fewer keys produced than there are
    accounts even after inserting it, the current key has no predecessor. *)
Definition broken_walk (accounts : list PythMappingAccount) : Prop :=
  ∃ last_key j,
    (scan_accounts accounts).2 = Some last_key ∧
    (j + 1 < length accounts)%nat ∧
    (scan_accounts accounts).1
      !! (walk_state (scan_accounts accounts).1 j last_key).2 = None.

(** ** Overrides *)

(** [overrides[network][symbol]], when both keys are present. *)
Definition override_of (ref_overrides : gmap string (gmap string bool))
    (network symbol : string) : option bool :=
  ref_overrides !! network ≫= (.!! symbol).

(** ** Signers *)

(** [account] is a signing account carrying the public key of [signer]. *)
Definition signing_account (signer : Keypair) (account : AccountMeta) : Prop :=
  keypair_public_key signer = pubkey account ∧ is_signer account = true.

(** [signer] appears as a signing account in at least one instruction of
    [transaction]. *)
Definition signs (transaction : Transaction) (signer : Keypair) : Prop :=
  Exists (λ instruction, Exists (signing_account signer) (keys instruction))
    (instructions transaction).

#[global] Instance signing_account_dec signer account :
  Decision (signing_account signer account).
Proof. unfold signing_account. apply _. Defined.

#[global] Instance signs_dec transaction signer :
  Decision (signs transaction signer).
Proof. unfold signs. apply _. Defined.

(** ** Metadata *)

(** A string fits when it encodes to at most 255 UTF-8 bytes, and is
    oversized when it encodes to more. *)
Definition fits (s : list N) : Prop :=
  ∃ s_bytes, str_encode s = Returned s_bytes ∧ (length s_bytes ≤ 255)%nat.

Definition oversized (s : list N) : Prop :=
  ∃ s_bytes, str_encode s = Returned s_bytes ∧ (255 < length s_bytes)%nat.

(** [len(key) ++ key_bytes ++ len(value) ++ value_bytes] *)
Definition entry_bytes (entry : list N * list N) : list N :=
  [N.of_nat (length entry.1)] ++ entry.1
  ++ [N.of_nat (length entry.2)] ++ entry.2.

(** [encoded] holds the UTF-8 bytes of the key and of the value of [entry],
    each of at most 255 bytes. *)
Definition encodes_to (entry encoded : list N * list N) : Prop :=
  str_encode entry.1 = Returned encoded.1 ∧ (length encoded.1 ≤ 255)%nat ∧
  str_encode entry.2 = Returned encoded.2 ∧ (length encoded.2 ≤ 255)%nat.

(** A string can be encoded when it holds no surrogate and nothing beyond
    the last code point. *)
Definition encodable (s : list N) : Prop :=
  Forall (λ c, c < 0x110000 ∧ ¬ (0xD800 ≤ c ∧ c ≤ 0xDFFF)) s.

Definition ascii (s : list N) : Prop := Forall (λ c, c < 0x80) s.

(** ** Links *)

(** The symbol of a reference product, when it has one. *)
Definition ref_symbol (product : ReferenceProduct) : option string :=
  ref_metadata product !! "symbol".

(** The mapping links of a list of links: the keys linked under a
    [mapping_] name, each with its counter. *)
Definition mapping_links (links : list (N * link_name)) : list (N * nat) :=
  omap (λ link, match link.2 with
                | mapping_link counter => Some (link.1, counter)
                | _ => None
                end) links.

(** Every product of the list is stored, has a symbol, and that symbol has a
    jump symbol. *)
Definition products_resolve (program_admin : ProgramAdmin)
    (jump_symbols : gmap string string) (product_keys : list N) : Prop :=
  Forall (λ product_key,
            ∃ product_account symbol,
              get_product_account program_admin product_key
              = Some product_account ∧
              metadata (product_data product_account) !! "symbol" = Some symbol ∧
              is_Some (jump_symbols !! symbol)) product_keys.

(** [key] is stored with an account that points to [next] and whose
    products resolve. *)
Definition stored_link (program_admin : ProgramAdmin)
    (jump_symbols : gmap string string) (link : N * N) : Prop :=
  ∃ mapping_account,
    get_mapping_account program_admin link.1 = Some mapping_account ∧
    next_key mapping_account = link.2 ∧
    products_resolve program_admin jump_symbols
      (product_account_keys (data mapping_account)).

(* ===================================================================== *)
(** * Part III: properties                                                *)
(* ===================================================================== *)

(** ** The scan of the accounts *)

Lemma scan_accounts_snoc accounts account :
  scan_accounts (accounts ++ [account])
  = scan_step (scan_accounts accounts) account.
Proof. unfold scan_accounts. by rewrite foldl_app. Qed.

Lemma pointing_to_snoc key accounts account :
  pointing_to key (accounts ++ [account])
  = pointing_to key accounts
    ++ (if decide (next_key account = key) then [account] else []).
Proof.
  unfold pointing_to. rewrite filter_app. by f_equal.
Qed.

(** [previous_keys] binds every key to the last account pointing to it, and
    [last_key] is the last account pointing to zero. *)
Lemma scan_accounts_spec accounts :
  (∀ key, (scan_accounts accounts).1 !! key
          = public_key <$> last (pointing_to key accounts))
  ∧ (scan_accounts accounts).2 = public_key <$> last (pointing_to 0 accounts).
Proof.
  induction accounts as [|account accounts [IHp IHl]] using rev_ind.
  - split; [intros key; apply lookup_empty | done].
  - rewrite scan_accounts_snoc.
    destruct (scan_accounts accounts) as [previous_keys last_key].
    simpl in *. fold (next_key account). split.
    + intros key. rewrite pointing_to_snoc.
      destruct (decide (next_key account = key)) as [->|Hne].
      * by rewrite lookup_insert_eq, last_snoc.
      * by rewrite lookup_insert_ne, app_nil_r.
    + rewrite pointing_to_snoc.
      destruct (decide (next_key account = 0)).
      * by rewrite last_snoc.
      * by rewrite app_nil_r.
Qed.

Lemma scan_accounts_tail accounts :
  has_tail accounts ↔ is_Some (scan_accounts accounts).2.
Proof.
  rewrite (proj2 (scan_accounts_spec accounts)), fmap_is_Some.
  unfold has_tail, pointing_to. split.
  - intros (account & Hin & Hnext).
    destruct (filter _ accounts) as [|x l] eqn:Hf using rev_ind.
    + assert (account ∈ filter (λ a, next_key a = 0) accounts) as Hin'
        by by apply list_elem_of_filter.
      rewrite Hf in Hin'. by apply elem_of_nil in Hin'.
    + rewrite last_snoc. eauto.
  - intros [account Hlast].
    apply last_Some in Hlast as [l Hl].
    assert (account ∈ filter (λ a, next_key a = 0) accounts) as Hin.
    { rewrite Hl. apply elem_of_app. right. apply list_elem_of_singleton.
      done. }
    apply list_elem_of_filter in Hin as [Hnext Hin]. by exists account.
Qed.

(** ** The backward walk *)

Lemma walk_state_S previous_keys j last_key :
  walk_state previous_keys (S j) last_key
  = walk_step previous_keys (walk_state previous_keys j last_key).
Proof. done. Qed.

Lemma walk_state_length previous_keys j last_key :
  length (walk_state previous_keys j last_key).1 = j.
Proof.
  induction j as [|j IH]; [done|].
  rewrite walk_state_S. simpl. by rewrite IH.
Qed.

(** With enough fuel the loop stops, after exactly as many iterations as
    keys are missing. *)
Lemma walk_iter k : ∀ fuel n previous_keys sorted_keys current,
  n = (length sorted_keys + k)%nat →
  (k ≤ fuel)%nat →
  walk fuel n previous_keys sorted_keys current
  = Some (Nat.iter k (walk_step previous_keys) (sorted_keys, current)).1.
Proof.
  induction k as [|k IH]; intros fuel n previous_keys sorted_keys current Hn Hk.
  - destruct fuel; simpl; case_decide; done || lia.
  - destruct fuel as [|fuel]; [lia|].
    simpl walk. case_decide; [|lia].
    rewrite (IH fuel) by (simpl; lia).
    by rewrite Nat.iter_succ_r.
Qed.

Lemma walk_from_tail fuel n previous_keys last_key :
  (n ≤ fuel)%nat →
  walk fuel n previous_keys [] last_key
  = Some (walk_state previous_keys n last_key).1.
Proof. intros Hn. by apply walk_iter. Qed.

(** What the function does on a non-empty collection, given the outcome of
    the scan. *)
Lemma sort_with_tail fuel accounts last_key :
  (scan_accounts accounts).2 = Some last_key →
  (length accounts ≤ fuel)%nat →
  sort_mapping_account_keys fuel accounts
  = Some (Returned (walk_state (scan_accounts accounts).1
                      (length accounts) last_key).1).
Proof.
  intros Hlast Hfuel. unfold sort_mapping_account_keys.
  destruct accounts as [|account accounts]; [done|].
  destruct (scan_accounts (account :: accounts)) as [previous_keys last].
  simpl in Hlast. subst last.
  by rewrite walk_from_tail.
Qed.

Lemma sort_without_tail fuel accounts :
  accounts ≠ [] →
  (scan_accounts accounts).2 = None →
  sort_mapping_account_keys fuel accounts
  = Some (Raised (RuntimeError "The linked list has no end")).
Proof.
  intros Hne Hlast. unfold sort_mapping_account_keys.
  destruct accounts as [|account accounts]; [done|].
  destruct (scan_accounts (account :: accounts)) as [previous_keys last].
  simpl in Hlast. by subst last.
Qed.

(** Once a key without predecessor is current, it stays current and is
    inserted again by every further iteration. *)
Lemma walk_state_stuck previous_keys last_key j k :
  previous_keys !! (walk_state previous_keys j last_key).2 = None →
  walk_state previous_keys (k + j) last_key
  = (replicate k (walk_state previous_keys j last_key).2
       ++ (walk_state previous_keys j last_key).1,
     (walk_state previous_keys j last_key).2).
Proof.
  intros Hnone. induction k as [|k IH].
  - simpl. by destruct (walk_state previous_keys j last_key).
  - replace (S k + j)%nat with (S (k + j)) by lia.
    rewrite walk_state_S, IH. unfold walk_step, step_back. simpl.
    by rewrite Hnone.
Qed.

(** ** Valid chains *)

Lemma chain_links_length chain : length (chain_links chain) = length chain.
Proof. induction chain; simpl; congruence. Qed.

Lemma chain_links_nexts chain :
  chain ≠ [] → (chain_links chain).*2 = tail chain ++ [0].
Proof.
  induction chain as [|key rest IH]; [done|]. intros _.
  destruct rest as [|key' rest]; [done|].
  simpl in *. by rewrite IH.
Qed.

Lemma chain_links_adjacent before a b after :
  (a, b) ∈ chain_links (before ++ a :: b :: after).
Proof.
  induction before as [|key before IH]; simpl.
  - apply elem_of_cons. by left.
  - apply elem_of_cons. by right.
Qed.

Lemma chain_links_tail before key :
  (key, 0) ∈ chain_links (before ++ [key]).
Proof.
  induction before as [|key' before IH]; simpl.
  - apply elem_of_cons. by left.
  - apply elem_of_cons. by right.
Qed.

Lemma links_nexts accounts : (links accounts).*2 = next_key <$> accounts.
Proof. unfold links. rewrite <- list_fmap_compose. done. Qed.

Lemma links_length accounts : length (links accounts) = length accounts.
Proof. unfold links. by rewrite length_fmap. Qed.

(** When no two accounts share their next key, each account is the only one
    pointing to its next key. *)
Lemma pointing_to_unique accounts account :
  NoDup (next_key <$> accounts) →
  account ∈ accounts →
  pointing_to (next_key account) accounts = [account].
Proof.
  unfold pointing_to.
  induction accounts as [|first accounts IH]; intros Hnodup Hin.
  - by apply elem_of_nil in Hin.
  - rewrite fmap_cons in Hnodup. apply NoDup_cons in Hnodup as [Hfresh Hnodup].
    rewrite filter_cons.
    apply elem_of_cons in Hin as [->|Hin].
    + rewrite decide_True by done. f_equal.
      apply elem_of_nil_inv. intros other [Hnext Hother]%list_elem_of_filter.
      apply Hfresh. rewrite <- Hnext. by apply list_elem_of_fmap_2.
    + rewrite decide_False; [by apply IH|].
      intros Heq. apply Hfresh. rewrite Heq. by apply list_elem_of_fmap_2.
Qed.

Lemma scan_accounts_link accounts a b :
  NoDup (next_key <$> accounts) →
  (a, b) ∈ links accounts →
  (scan_accounts accounts).1 !! b = Some a.
Proof.
  intros Hnodup (account & [= -> ->] & Hin)%list_elem_of_fmap.
  rewrite (proj1 (scan_accounts_spec accounts)).
  by rewrite pointing_to_unique.
Qed.

(** Walking back from any position of a chain whose links are all recorded
    in [previous_keys] rebuilds the chain. *)
Lemma walk_chain previous_keys chain :
  (∀ before a b after,
     chain = before ++ a :: b :: after → previous_keys !! b = Some a) →
  ∀ before current after,
    chain = before ++ current :: after →
    (Nat.iter (S (length before)) (walk_step previous_keys)
       (after, current)).1 = chain.
Proof.
  intros Hprev before.
  induction before as [|previous before IH] using rev_ind;
    intros current after Hchain.
  - done.
  - rewrite length_app, Nat.add_1_r, Nat.iter_succ_r.
    unfold walk_step at 2, step_back. simpl.
    rewrite <- app_assoc in Hchain. simpl in Hchain.
    rewrite (Hprev _ _ _ _ Hchain).
    by apply IH.
Qed.

Lemma list_snoc_cases {A} (l : list A) :
  l = [] ∨ ∃ before x, l = before ++ [x].
Proof. induction l using rev_ind; eauto. Qed.

Section valid_chain.
Variables (accounts : list PythMappingAccount) (chain : list N).
Hypothesis chain_nodup : NoDup chain.
Hypothesis chain_nonzero : 0 ∉ chain.
Hypothesis accounts_chain : links accounts ≡ₚ chain_links chain.

Lemma valid_chain_length : length accounts = length chain.
Proof.
  rewrite <- links_length, <- chain_links_length.
  by apply Permutation_length.
Qed.

Lemma valid_chain_nexts : NoDup (next_key <$> accounts).
Proof.
  rewrite <- links_nexts, accounts_chain.
  destruct (decide (chain = [])) as [Hnil|Hcons].
  - rewrite Hnil. constructor.
  - rewrite chain_links_nexts by done.
    apply NoDup_app. split_and!; [|intros k Hk|apply NoDup_singleton].
    + pose proof chain_nodup as Hnodup.
      destruct chain as [|key rest]; [done|].
      by apply NoDup_cons in Hnodup as [_ Hrest].
    + intros ->%list_elem_of_singleton. apply chain_nonzero.
      destruct chain as [|key rest]; [done|].
      by apply elem_of_cons; right.
Qed.

Lemma valid_chain_previous before a b after :
  chain = before ++ a :: b :: after →
  (scan_accounts accounts).1 !! b = Some a.
Proof.
  intros Hchain. apply scan_accounts_link; [apply valid_chain_nexts|].
  rewrite accounts_chain, Hchain. apply chain_links_adjacent.
Qed.

Lemma valid_chain_last before key :
  chain = before ++ [key] → (scan_accounts accounts).2 = Some key.
Proof.
  intros Hchain.
  assert ((scan_accounts accounts).1 !! 0 = Some key) as Hzero.
  { apply scan_accounts_link; [apply valid_chain_nexts|].
    rewrite accounts_chain, Hchain. apply chain_links_tail. }
  destruct (scan_accounts_spec accounts) as [Hprev Hlast].
  by rewrite Hlast, <- Hprev.
Qed.

Lemma valid_chain_sorted fuel :
  (length accounts ≤ fuel)%nat →
  sort_mapping_account_keys fuel accounts = Some (Returned chain).
Proof.
  intros Hfuel. pose proof valid_chain_length as Hlen.
  destruct (list_snoc_cases chain) as [Hnil|(before & key & Hchain)].
  - rewrite Hnil in Hlen |- *. by destruct accounts.
  - rewrite (sort_with_tail _ _ key);
      [|by eapply valid_chain_last|done].
    assert (length accounts = S (length before)) as ->.
    { rewrite Hlen, Hchain, length_app. simpl. lia. }
    do 2 f_equal. unfold walk_state.
    apply walk_chain; [|done].
    intros. by eapply valid_chain_previous.
Qed.
End valid_chain.

Lemma walk_state_last previous_keys j last_key :
  last (walk_state previous_keys (S j) last_key).1 = Some last_key.
Proof.
  induction j as [|j IH]; [done|].
  change (walk_state previous_keys (S (S j)) last_key)
    with (walk_step previous_keys (walk_state previous_keys (S j) last_key)).
  unfold walk_step at 1. cbn [fst].
  rewrite last_cons. by rewrite IH.
Qed.

(** ** Claims on [sort_mapping_account_keys] *)

(** C1. Given any permutation of the accounts of a valid chain
    [k1 → k2 → ... → kn → 0] (distinct non-zero keys, each account pointing to
    the next key of the chain and the last one to zero),
    [sort_mapping_account_keys] returns the keys in traversal order,
    [k1; ...; kn], whatever the order of the input. *)
Theorem sort_mapping_account_keys_valid_chain
    (accounts : list PythMappingAccount) (chain : list N) (fuel : nat) :
  NoDup chain →
  0 ∉ chain →
  links accounts ≡ₚ chain_links chain →
  (length accounts ≤ fuel)%nat →
  sort_mapping_account_keys fuel accounts = Some (Returned chain).
Proof. intros. by apply valid_chain_sorted. Qed.

(** The scenario of C1 at the keys [A = 1], [B = 2], [C = 3]: the input
    [C; A; B] yields [A; B; C]. *)
Lemma sort_mapping_account_keys_valid_chain_witness :
  sort_mapping_account_keys 3
    [mapping_account 3 0 []; mapping_account 1 2 []; mapping_account 2 3 []]
  = Some (Returned [1; 2; 3]).
Proof.
  apply sort_mapping_account_keys_valid_chain.
  - refine (bool_decide_unpack _ _). vm_compute. exact I.
  - refine (bool_decide_unpack _ _). vm_compute. exact I.
  - vm_compute. apply (Permutation_app_comm [(3, 0)] [(1, 2); (2, 3)]).
  - simpl. lia.
Defined.

(** The same scenario for arbitrary keys. *)
Lemma sort_mapping_account_keys_scenario (A B C : N) products_A products_B products_C :
  A ≠ 0 → B ≠ 0 → C ≠ 0 → A ≠ B → A ≠ C → B ≠ C →
  sort_mapping_account_keys 3
    [mapping_account C 0 products_C; mapping_account A B products_A;
     mapping_account B C products_B]
  = Some (Returned [A; B; C]).
Proof.
  intros HA HB HC HAB HAC HBC. apply valid_chain_sorted.
  - repeat (apply NoDup_cons; split; [rewrite ?elem_of_cons, elem_of_nil; tauto|]).
    apply NoDup_nil_2.
  - rewrite !elem_of_cons, elem_of_nil. intros [?|[?|[?|[]]]]; congruence.
  - apply (Permutation_app_comm [(C, 0)] [(A, B); (B, C)]).
  - simpl. lia.
Qed.

(** C9. On the empty collection the function returns the empty sequence,
    without raising and without entering the loop. *)
Theorem sort_mapping_account_keys_empty (fuel : nat) :
  sort_mapping_account_keys fuel [] = Some (Returned []).
Proof. done. Qed.

(** C10. Whenever some account has a zero next key, the function terminates
    (any fuel of at least the input count suffices) and returns a list of
    exactly as many keys as there are accounts, whether or not the accounts
    form a single valid chain. *)
Theorem sort_mapping_account_keys_returns_input_count
    (accounts : list PythMappingAccount) :
  has_tail accounts →
  ∃ sorted_keys,
    length sorted_keys = length accounts ∧
    ∀ fuel, (length accounts ≤ fuel)%nat →
      sort_mapping_account_keys fuel accounts = Some (Returned sorted_keys).
Proof.
  intros [last_key Hlast]%scan_accounts_tail.
  eexists. split; [|intros fuel Hfuel; by apply sort_with_tail].
  apply walk_state_length.
Qed.

(** C10 on a collection that is not a chain: the first account points to a
    key that no account has. *)
Lemma sort_mapping_account_keys_returns_input_count_witness :
  ∃ sorted_keys,
    length sorted_keys = 2%nat ∧
    ∀ fuel, (2 ≤ fuel)%nat →
      sort_mapping_account_keys fuel
        [mapping_account 1 9 []; mapping_account 2 0 []]
      = Some (Returned sorted_keys).
Proof.
  apply (sort_mapping_account_keys_returns_input_count
           [mapping_account 1 9 []; mapping_account 2 0 []]).
  exists (mapping_account 2 0 []). split; [|reflexivity].
  apply elem_of_cons; right. apply elem_of_cons; by left.
Defined.

(** C5, as stated, fails: the second of these two accounts is a tail, the
    first one points to a key that no account has, so the walk finds no
    predecessor for the tail with one key produced out of two; the function
    raises nothing and returns the tail twice. *)
Lemma sort_mapping_account_keys_broken_walk_counterexample :
  let accounts := [mapping_account 1 9 []; mapping_account 2 0 []] in
  has_tail accounts ∧ broken_walk accounts ∧
  sort_mapping_account_keys 2 accounts = Some (Returned [2; 2]) ∧
  ∀ e, sort_mapping_account_keys 2 accounts ≠ Some (Raised e).
Proof.
  split_and!.
  - exists (mapping_account 2 0 []). split; [|done].
    apply elem_of_cons; right. apply elem_of_cons; by left.
  - exists 2, 0%nat. split_and!; [done|simpl; lia|done].
  - done.
  - done.
Qed.

(** C5, amended. With a tail present, a missing predecessor is not an error:
    if after [j] iterations the current key has no predecessor while fewer
    than [len(accounts)] keys would be produced by inserting it, the function
    returns a list of [len(accounts)] keys, made of that key repeated
    [len(accounts) - j] times in front of the [j] keys produced before. *)
Theorem sort_mapping_account_keys_broken_walk_pads
    (accounts : list PythMappingAccount) (fuel : nat) (last_key : N) (j : nat) :
  let previous_keys := (scan_accounts accounts).1 in
  let stuck := walk_state previous_keys j last_key in
  (scan_accounts accounts).2 = Some last_key →
  (j + 1 < length accounts)%nat →
  previous_keys !! stuck.2 = None →
  (length accounts ≤ fuel)%nat →
  sort_mapping_account_keys fuel accounts
  = Some (Returned (replicate (length accounts - j) stuck.2 ++ stuck.1))
  ∧ length (replicate (length accounts - j) stuck.2 ++ stuck.1)
    = length accounts.
Proof.
  intros previous_keys stuck Hlast Hj Hnone Hfuel. split.
  - rewrite (sort_with_tail _ _ last_key) by done.
    do 2 f_equal. fold previous_keys.
    replace (length accounts) with ((length accounts - j) + j)%nat at 1 by lia.
    by rewrite walk_state_stuck.
  - rewrite length_app, length_replicate. unfold stuck.
    rewrite walk_state_length. lia.
Qed.

Lemma sort_mapping_account_keys_broken_walk_pads_witness :
  sort_mapping_account_keys 2 [mapping_account 1 9 []; mapping_account 2 0 []]
  = Some (Returned [2; 2])
  ∧ length [2; 2] = 2%nat.
Proof.
  apply (sort_mapping_account_keys_broken_walk_pads
           [mapping_account 1 9 []; mapping_account 2 0 []] 2 2 0).
  - reflexivity.
  - simpl. lia.
  - reflexivity.
  - simpl. lia.
Defined.

(** C6, as stated, fails in its second half: with two accounts whose next
    key is zero the function raises nothing; it takes the later one as the
    end of the list and returns it twice. *)
Lemma sort_mapping_account_keys_two_tails_counterexample :
  let accounts := [mapping_account 1 0 []; mapping_account 2 0 []] in
  length (pointing_to 0 accounts) = 2%nat ∧
  sort_mapping_account_keys 2 accounts = Some (Returned [2; 2]) ∧
  ∀ e, sort_mapping_account_keys 2 accounts ≠ Some (Raised e).
Proof. by split_and!. Qed.

(** C6, amended. On a non-empty collection without any zero next key the
    function raises [RuntimeError("The linked list has no end")].  With two or
    more zero next keys it raises nothing: it returns as many keys as there
    are accounts, ending with the key of the last account, in input order,
    whose next key is zero. *)
Theorem sort_mapping_account_keys_tail_markers
    (accounts : list PythMappingAccount) :
  accounts ≠ [] →
  (¬ has_tail accounts →
   ∀ fuel, sort_mapping_account_keys fuel accounts
           = Some (Raised (RuntimeError "The linked list has no end")))
  ∧
  ((2 ≤ length (pointing_to 0 accounts))%nat →
   ∃ sorted_keys tail,
     last (pointing_to 0 accounts) = Some tail ∧
     length sorted_keys = length accounts ∧
     last sorted_keys = Some (public_key tail) ∧
     ∀ fuel, (length accounts ≤ fuel)%nat →
       sort_mapping_account_keys fuel accounts = Some (Returned sorted_keys)).
Proof.
  intros Hne. split.
  - intros Htail fuel. apply sort_without_tail; [done|].
    rewrite scan_accounts_tail in Htail.
    by destruct (scan_accounts accounts).2; [destruct Htail|].
  - intros Htwo.
    destruct (last (pointing_to 0 accounts)) as [tail|] eqn:Htail.
    2:{ apply last_None in Htail. rewrite Htail in Htwo. simpl in Htwo. lia. }
    pose proof (proj2 (scan_accounts_spec accounts)) as Hlast.
    rewrite Htail in Hlast. simpl in Hlast.
    eexists _, tail. split_and!; [done| | |].
    3:{ intros fuel Hfuel. by apply sort_with_tail. }
    + apply walk_state_length.
    + destruct accounts as [|account rest]; [done|]. apply walk_state_last.
Qed.

Lemma sort_mapping_account_keys_tail_markers_witness :
  sort_mapping_account_keys 1 [mapping_account 1 2 []]
  = Some (Raised (RuntimeError "The linked list has no end"))
  ∧
  ∃ sorted_keys tail,
    last (pointing_to 0 [mapping_account 1 0 []; mapping_account 2 0 []])
    = Some tail ∧
    length sorted_keys = 2%nat ∧
    last sorted_keys = Some (public_key tail) ∧
    ∀ fuel, (2 ≤ fuel)%nat →
      sort_mapping_account_keys fuel
        [mapping_account 1 0 []; mapping_account 2 0 []]
      = Some (Returned sorted_keys).
Proof.
  split.
  - refine (proj1 (sort_mapping_account_keys_tail_markers
                     [mapping_account 1 2 []] _) _ 1%nat).
    + discriminate.
    + intros (account & Hin & Hnext).
      apply elem_of_cons in Hin as [->|Hin]; [discriminate|].
      by apply elem_of_nil in Hin.
  - refine (proj2 (sort_mapping_account_keys_tail_markers
                     [mapping_account 1 0 []; mapping_account 2 0 []] _) _).
    + discriminate.
    + simpl. lia.
Defined.

(** ** [apply_overrides] *)

Lemma revoked_override_of ref_overrides network symbol :
  revoked (default ∅ (ref_overrides !! network)) symbol = true
  ↔ override_of ref_overrides network symbol = Some false.
Proof.
  unfold revoked, override_of.
  destruct (ref_overrides !! network) as [network_overrides|]; simpl.
  - destruct (network_overrides !! symbol) as [[]|]; simpl; naive_solver.
  - rewrite lookup_empty. naive_solver.
Qed.

(** The loop binds every symbol of the input, and only those. *)
Lemma apply_overrides_lookup ref_permissions ref_overrides network symbol :
  apply_overrides ref_permissions ref_overrides network !! symbol
  = (λ value,
       if revoked (default ∅ (ref_overrides !! network)) symbol
       then (λ _ : list string, []) <$> value
       else value) <$> ref_permissions !! symbol.
Proof.
  unfold apply_overrides.
  apply (map_fold_weak_ind (λ overridden_permissions permissions,
    overridden_permissions !! symbol
    = (λ value,
         if revoked (default ∅ (ref_overrides !! network)) symbol
         then (λ _ : list string, []) <$> value
         else value) <$> permissions !! symbol)).
  { by rewrite !lookup_empty. }
  intros key value permissions overridden_permissions Hfresh IH.
  destruct (decide (key = symbol)) as [->|Hne].
  - rewrite lookup_insert_eq. simpl.
    destruct (revoked _ symbol); by rewrite lookup_insert_eq.
  - rewrite (lookup_insert_ne permissions) by done.
    destruct (revoked _ key); by rewrite lookup_insert_ne.
Qed.

(** C2. In the result of [apply_overrides], a symbol whose override for the
    network is present and false is bound to a mapping with the same
    account-type keys, each bound to the empty publisher list; every other
    symbol of the input is bound to its input value; no symbol is added or
    removed; and with a network absent from the overrides the result is the
    input. *)
Theorem apply_overrides_spec
    (ref_permissions : gmap string (gmap string (list string)))
    (ref_overrides : gmap string (gmap string bool))
    (network : string) :
  let overridden := apply_overrides ref_permissions ref_overrides network in
  (∀ symbol value,
     ref_permissions !! symbol = Some value →
     override_of ref_overrides network symbol = Some false →
     ∃ emptied,
       overridden !! symbol = Some emptied ∧
       dom emptied = dom value ∧
       ∀ account_type, account_type ∈ dom value →
                       emptied !! account_type = Some [])
  ∧ (∀ symbol,
       override_of ref_overrides network symbol ≠ Some false →
       overridden !! symbol = ref_permissions !! symbol)
  ∧ dom overridden = dom ref_permissions
  ∧ (ref_overrides !! network = None → overridden = ref_permissions).
Proof.
  intros overridden. subst overridden. split_and!.
  - intros symbol value Hvalue Hrevoke.
    apply revoked_override_of in Hrevoke.
    exists ((λ _ : list string, []) <$> value). split_and!.
    + by rewrite apply_overrides_lookup, Hvalue, Hrevoke.
    + apply dom_fmap_L.
    + intros account_type [publishers Hpub]%elem_of_dom.
      by rewrite lookup_fmap, Hpub.
  - intros symbol Hkeep. rewrite apply_overrides_lookup.
    destruct (revoked _ symbol) eqn:Hrevoke.
    + by apply revoked_override_of in Hrevoke.
    + by destruct (ref_permissions !! symbol).
  - apply set_eq. intros symbol.
    rewrite !elem_of_dom, apply_overrides_lookup. apply fmap_is_Some.
  - intros Hnone. apply map_eq. intros symbol.
    rewrite apply_overrides_lookup.
    assert (revoked (default ∅ (ref_overrides !! network)) symbol = false)
      as ->.
    { rewrite Hnone. unfold revoked. simpl. by rewrite lookup_empty. }
    by destruct (ref_permissions !! symbol).
Qed.

(** The scenario of the specification: reference permissions
    [{"BTC/USD": {"price": ["pub1", "pub2"]}}], overrides
    [{"mainnet": {"BTC/USD": false}}] and network ["mainnet"]. *)
Lemma apply_overrides_spec_witness :
  ∃ emptied,
    apply_overrides {["BTC/USD" := {["price" := ["pub1"; "pub2"]]}]}
                    {["mainnet" := {["BTC/USD" := false]}]} "mainnet"
      !! "BTC/USD" = Some emptied ∧
    dom emptied = dom ({["price" := ["pub1"; "pub2"]]} : gmap string (list string)) ∧
    ∀ account_type,
      account_type ∈ dom ({["price" := ["pub1"; "pub2"]]} : gmap string (list string)) →
      emptied !! account_type = Some [].
Proof.
  refine (proj1 (apply_overrides_spec
                   {["BTC/USD" := {["price" := ["pub1"; "pub2"]]}]}
                   {["mainnet" := {["BTC/USD" := false]}]} "mainnet")
            "BTC/USD" {["price" := ["pub1"; "pub2"]]} _ _).
  - vm_compute. reflexivity.
  - vm_compute. reflexivity.
Defined.

Lemma apply_overrides_scenario :
  apply_overrides {["BTC/USD" := {["price" := ["pub1"; "pub2"]]}]}
                  {["mainnet" := {["BTC/USD" := false]}]} "mainnet"
  = {["BTC/USD" := {["price" := []]}]}.
Proof.
  apply map_eq. intros symbol. rewrite apply_overrides_lookup.
  destruct (decide ("BTC/USD" = symbol)) as [<-|Hne].
  - rewrite !lookup_singleton_eq. simpl.
    unfold revoked. rewrite lookup_singleton_eq. simpl.
    reflexivity.
  - by rewrite !(lookup_singleton_ne "BTC/USD" symbol).
Qed.

(** ** [get_actual_signers] *)

Lemma py_any_map {A} (f : A → bool) (l : list A) :
  py_any (map f l) = true ↔ Exists (λ x, f x = true) l.
Proof.
  unfold py_any. induction l as [|x l IH]; simpl.
  - split; [done|]. by intros ?%Exists_nil.
  - rewrite Exists_cons, orb_true_iff, IH. done.
Qed.

Lemma Exists_equiv {A} (P Q : A → Prop) (l : list A) :
  (∀ x, P x ↔ Q x) → Exists P l ↔ Exists Q l.
Proof. intros HPQ. rewrite !Exists_exists. by setoid_rewrite HPQ. Qed.

(** The test of the loop body decides [signs]. *)
Lemma instruction_has_signer_signs transaction signer :
  py_any
    (map (λ instruction,
            py_any (map (λ account,
                          (keypair_public_key signer =? pubkey account)
                          && is_signer account)
                       (keys instruction)))
         (instructions transaction)) = true
  ↔ signs transaction signer.
Proof.
  rewrite py_any_map. unfold signs.
  apply Exists_equiv. intros instruction. rewrite py_any_map.
  apply Exists_equiv. intros account. unfold signing_account.
  by rewrite andb_true_iff, N.eqb_eq.
Qed.

(** The loop appends to the accumulator, in order, the signers that pass
    the test. *)
Lemma get_actual_signers_loop transaction signers : ∀ actual_signers,
  foldl (λ actual_signers signer,
      if py_any
           (map (λ instruction,
                   py_any (map (λ account,
                                 (keypair_public_key signer =? pubkey account)
                                 && is_signer account)
                              (keys instruction)))
                (instructions transaction))
      then actual_signers ++ [signer]
      else actual_signers)
    actual_signers signers
  = actual_signers ++ filter (signs transaction) signers.
Proof.
  induction signers as [|signer signers IH]; intros actual_signers; simpl.
  - by rewrite app_nil_r.
  - rewrite IH, filter_cons.
    destruct (py_any _) eqn:Htest; case_decide as Hsigns.
    + by rewrite <- app_assoc.
    + by apply instruction_has_signer_signs in Htest.
    + apply instruction_has_signer_signs in Hsigns. congruence.
    + done.
Qed.

Lemma get_actual_signers_filter signers transaction :
  get_actual_signers signers transaction = filter (signs transaction) signers.
Proof. apply (get_actual_signers_loop transaction signers []). Qed.

(** A pool of three keypairs and a transaction of two instructions: key 1
    signs the first instruction, key 3 the second, key 2 is only a
    non-signing account; the signers are 1 and 3, in pool order. *)
Example get_actual_signers_example :
  get_actual_signers
    [ {| keypair_public_key := 1; secret_key := [] |};
      {| keypair_public_key := 2; secret_key := [] |};
      {| keypair_public_key := 3; secret_key := [] |} ]
    {| instructions :=
         [ {| keys := [ {| pubkey := 3; is_signer := false; is_writable := true |};
                        {| pubkey := 1; is_signer := true; is_writable := true |} ];
              program_id := 7; instruction_data := [] |};
           {| keys := [ {| pubkey := 3; is_signer := true; is_writable := false |};
                        {| pubkey := 2; is_signer := false; is_writable := true |} ];
              program_id := 7; instruction_data := [] |} ] |}
  = [ {| keypair_public_key := 1; secret_key := [] |};
      {| keypair_public_key := 3; secret_key := [] |} ].
Proof. reflexivity. Qed.

(** C3. [get_actual_signers] keeps exactly the keypairs of the pool whose
    public key is a signing account of at least one instruction of the
    transaction: the result is the pool filtered by that property, so it
    contains those keypairs and no others, in the order of the pool. *)
Theorem get_actual_signers_spec
    (signers : list Keypair) (transaction : Transaction) :
  get_actual_signers signers transaction = filter (signs transaction) signers
  ∧ (∀ signer, signer ∈ get_actual_signers signers transaction
               ↔ signer ∈ signers ∧ signs transaction signer)
  ∧ get_actual_signers signers transaction `sublist_of` signers.
Proof.
  rewrite get_actual_signers_filter. split_and!.
  - done.
  - intros signer. rewrite list_elem_of_filter. tauto.
  - apply sublist_filter.
Qed.

(** ** UTF-8 *)

Ltac div_lia := zify; Z.to_euclidean_division_equations; lia.

(** Settles the comparisons of the goal, arithmetic deciding which way each
    of them goes. *)
Ltac settle_tests :=
  repeat match goal with
    | |- context [N.ltb ?a ?b] =>
        destruct (N.ltb_spec a b); try (exfalso; div_lia)
    | |- context [N.leb ?a ?b] =>
        destruct (N.leb_spec a b); try (exfalso; div_lia)
    end.

Lemma str_decode_cons b0 r0 :
  str_decode (b0 :: r0)
  = if b0 <? 0x80 then cons b0 <$> str_decode r0
    else if b0 <? 0xC2 then None
    else if b0 <? 0xE0 then
      match r0 with
      | b1 :: r1 =>
          if continuation b1
          then cons ((b0 - 0xC0) * 0x40 + (b1 - 0x80)) <$> str_decode r1
          else None
      | _ => None
      end
    else if b0 <? 0xF0 then
      match r0 with
      | b1 :: b2 :: r2 =>
          let c := (b0 - 0xE0) * 0x1000 + (b1 - 0x80) * 0x40 + (b2 - 0x80) in
          if continuation b1 && continuation b2 && (0x800 <=? c)
             && negb ((0xD800 <=? c) && (c <=? 0xDFFF))
          then cons c <$> str_decode r2
          else None
      | _ => None
      end
    else if b0 <? 0xF5 then
      match r0 with
      | b1 :: b2 :: b3 :: r3 =>
          let c := (b0 - 0xF0) * 0x40000 + (b1 - 0x80) * 0x1000
                   + (b2 - 0x80) * 0x40 + (b3 - 0x80) in
          if continuation b1 && continuation b2 && continuation b3
             && (0x10000 <=? c) && (c <? 0x110000)
          then cons c <$> str_decode r3
          else None
      | _ => None
      end
    else None.
Proof. done. Qed.

Lemma str_decode_char c char_bytes rest :
  utf8_char c = Returned char_bytes →
  str_decode (char_bytes ++ rest) = cons c <$> str_decode rest.
Proof.
  unfold utf8_char.
  destruct (N.ltb_spec c 0x80) as [H1|H1].
  { intros [= <-]. cbn [app]. rewrite str_decode_cons. by settle_tests. }
  destruct (N.ltb_spec c 0x800) as [H2|H2].
  { intros [= <-]. cbn [app]. rewrite str_decode_cons.
    unfold continuation. cbv beta iota zeta. settle_tests. cbn [andb].
    f_equal. f_equal. div_lia. }
  destruct (N.ltb_spec c 0x10000) as [H3|H3].
  { destruct (N.leb_spec 0xD800 c) as [H4|H4];
      [destruct (N.leb_spec c 0xDFFF) as [H5|H5]; [done|]|];
      intros [= <-]; cbn [app andb]; rewrite str_decode_cons;
      unfold continuation; cbv beta iota zeta.
    - replace ((0xE0 + c / 0x1000 - 0xE0) * 0x1000
               + (0x80 + (c / 0x40) mod 0x40 - 0x80) * 0x40
               + (0x80 + c mod 0x40 - 0x80)) with c by div_lia.
      settle_tests. done.
    - replace ((0xE0 + c / 0x1000 - 0xE0) * 0x1000
               + (0x80 + (c / 0x40) mod 0x40 - 0x80) * 0x40
               + (0x80 + c mod 0x40 - 0x80)) with c by div_lia.
      settle_tests. done. }
  destruct (N.ltb_spec c 0x110000) as [H4|H4]; [|done].
  intros [= <-]. cbn [app]. rewrite str_decode_cons.
  unfold continuation. cbv beta iota zeta.
  replace ((0xF0 + c / 0x40000 - 0xF0) * 0x40000
           + (0x80 + (c / 0x1000) mod 0x40 - 0x80) * 0x1000
           + (0x80 + (c / 0x40) mod 0x40 - 0x80) * 0x40
           + (0x80 + c mod 0x40 - 0x80)) with c by div_lia.
  settle_tests. done.
Qed.

Lemma str_decode_encode s : ∀ s_bytes,
  str_encode s = Returned s_bytes → str_decode s_bytes = Some s.
Proof.
  induction s as [|c s IH]; intros s_bytes; simpl.
  - by intros [= <-].
  - destruct (utf8_char c) as [char_bytes|] eqn:Hchar; [|done]. simpl.
    destruct (str_encode s) as [rest|]; [|done]. simpl.
    intros [= <-].
    by rewrite (str_decode_char c), (IH rest).
Qed.

Lemma str_encode_inj s1 s2 s_bytes :
  str_encode s1 = Returned s_bytes → str_encode s2 = Returned s_bytes → s1 = s2.
Proof.
  intros H1%str_decode_encode H2%str_decode_encode. congruence.
Qed.

Lemma utf8_char_bytes c char_bytes :
  utf8_char c = Returned char_bytes → Forall (λ b, b < 256) char_bytes.
Proof.
  unfold utf8_char.
  repeat match goal with
    | |- context [N.ltb ?a ?b] => destruct (N.ltb_spec a b)
    | |- context [N.leb ?a ?b] => destruct (N.leb_spec a b)
    end; cbn [andb]; intros [= <-];
    repeat (apply Forall_cons; split; [div_lia|]); apply Forall_nil_2.
Qed.

Lemma str_encode_bytes s : ∀ s_bytes,
  str_encode s = Returned s_bytes → Forall (λ b, b < 256) s_bytes.
Proof.
  induction s as [|c s IH]; intros s_bytes; simpl.
  - intros [= <-]. apply Forall_nil_2.
  - destruct (utf8_char c) as [char_bytes|] eqn:Hchar; [|done]. simpl.
    destruct (str_encode s) as [rest|]; [|done]. simpl.
    intros [= <-]. apply Forall_app. split; [by eapply utf8_char_bytes|by apply IH].
Qed.

(** ** [encode_product_metadata] *)

#[local] Arguments to_bytes_1 : simpl never.

Lemma to_bytes_1_returned n len_bytes :
  to_bytes_1 n = Returned len_bytes →
  (n ≤ 255)%nat ∧ len_bytes = [N.of_nat n].
Proof.
  unfold to_bytes_1. destruct (Nat.leb_spec n 255); [|done].
  by intros [= <-].
Qed.

Lemma to_bytes_1_small n :
  (n ≤ 255)%nat → to_bytes_1 n = Returned [N.of_nat n].
Proof. intros Hn. unfold to_bytes_1. by rewrite (proj2 (Nat.leb_le _ _)). Qed.

Lemma to_bytes_1_large n : (255 < n)%nat → to_bytes_1 n = Raised OverflowError.
Proof.
  intros Hn. unfold to_bytes_1.
  by rewrite (proj2 (Nat.leb_gt _ _)).
Qed.

(** The loop on entries that all fit: every entry appends its four fields
    to the buffer. *)
Lemma encode_items_fits items encoded :
  Forall2 encodes_to items encoded →
  ∀ buffer,
    encode_items items buffer
    = Returned (buffer ++ concat (entry_bytes <$> encoded)).
Proof.
  induction 1 as [|[key value] [key_bytes value_bytes] items encoded
                    (Hkey & Hklen & Hvalue & Hvlen) _ IH];
    intros buffer; simpl in *.
  - by rewrite app_nil_r.
  - rewrite Hkey. simpl. rewrite to_bytes_1_small by done. simpl.
    rewrite Hvalue. simpl. rewrite to_bytes_1_small by done. simpl.
    rewrite IH. unfold entry_bytes. simpl. by rewrite <- app_assoc.
Qed.

(** The loop on entries one of which is oversized: an exception is raised,
    at that entry or before. *)
Lemma encode_items_oversized items key value :
  (key, value) ∈ items →
  oversized key ∨ oversized value →
  ∀ buffer, ∃ e, encode_items items buffer = Raised e.
Proof.
  intros Hin Hover.
  induction items as [|[key' value'] items IH]; intros buffer.
  - by apply elem_of_nil in Hin.
  - simpl.
    destruct (str_encode key') as [key_bytes|] eqn:Hkey; [|by eexists].
    simpl.
    destruct (to_bytes_1 (length key_bytes)) as [key_len|] eqn:Hklen;
      [|by eexists].
    simpl.
    destruct (str_encode value') as [value_bytes|] eqn:Hvalue; [|by eexists].
    simpl.
    destruct (to_bytes_1 (length value_bytes)) as [value_len|] eqn:Hvlen;
      [|by eexists].
    simpl.
    apply elem_of_cons in Hin as [[= -> ->]|Hin]; [|by apply IH].
    destruct Hover as [(s_bytes & Hs & Hlen)|(s_bytes & Hs & Hlen)].
    + rewrite Hkey in Hs. injection Hs as ->.
      rewrite to_bytes_1_large in Hklen by done. done.
    + rewrite Hvalue in Hs. injection Hs as ->.
      rewrite to_bytes_1_large in Hvlen by done. done.
Qed.

Lemma entry_bytes_bytes entry encoded :
  encodes_to entry encoded → Forall (λ b, b < 256) (entry_bytes encoded).
Proof.
  intros (Hkey & Hklen & Hvalue & Hvlen). unfold entry_bytes.
  repeat (apply Forall_app; split);
    try (apply Forall_singleton; lia); by eapply str_encode_bytes.
Qed.

(** C7. When every key and value encodes to at most 255 bytes,
    [encode_product_metadata] returns the concatenation, in the order of the
    mapping, of [len(key) ++ key_bytes ++ len(value) ++ value_bytes], every
    length being one byte and every element of the output a byte; and when
    some entry has a key or a value of more than 255 bytes, it raises instead
    of returning. *)
Theorem encode_product_metadata_spec (data : list (list N * list N)) :
  (∀ encoded,
     Forall2 encodes_to data encoded →
     encode_product_metadata data = Returned (concat (entry_bytes <$> encoded))
     ∧ Forall (λ b, b < 256) (concat (entry_bytes <$> encoded)))
  ∧ (∀ key value,
       (key, value) ∈ data →
       oversized key ∨ oversized value →
       ∃ e, encode_product_metadata data = Raised e).
Proof.
  split.
  - intros encoded Hfits. split.
    + unfold encode_product_metadata. by rewrite (encode_items_fits _ encoded).
    + apply Forall_concat. induction Hfits; simpl; constructor; [|done].
      by eapply entry_bytes_bytes.
  - intros key value Hin Hover. by eapply encode_items_oversized.
Qed.

Lemma encode_product_metadata_spec_witness :
  (encode_product_metadata [([0x61], [0xE9])]
   = Returned [1; 0x61; 2; 0xC3; 0xA9]
   ∧ Forall (λ b, b < 256) [1; 0x61; 2; 0xC3; 0xA9])
  ∧ ∃ e, encode_product_metadata [(replicate 256 0x61, [])] = Raised e.
Proof.
  split.
  - apply (proj1 (encode_product_metadata_spec [([0x61], [0xE9])])
             [([0x61], [0xC3; 0xA9])]).
    repeat constructor; simpl; lia.
  - apply (proj2 (encode_product_metadata_spec [(replicate 256 0x61, [])])
             (replicate 256 0x61) []).
    + apply elem_of_cons. by left.
    + left. eexists. split; [vm_compute; reflexivity|vm_compute; lia].
Defined.

(** ** The decoder *)

Lemma read_field_entry field rest :
  read_field (N.of_nat (length field) :: field ++ rest) = Some (field, rest).
Proof.
  unfold read_field. rewrite Nat2N.id.
  rewrite (proj2 (Nat.leb_le _ _)) by (rewrite length_app; lia).
  by rewrite take_app_length, drop_app_length.
Qed.

(** Parsing the encoding of entries that fit gives the entries back. *)
Lemma parse_items_encoded items encoded :
  Forall2 encodes_to items encoded →
  ∀ fuel, (length items ≤ fuel)%nat →
    parse_items fuel (concat (entry_bytes <$> encoded)) = Some (Some items).
Proof.
  induction 1 as [|[key value] [key_bytes value_bytes] items encoded
                    (Hkey & Hklen & Hvalue & Hvlen) _ IH];
    intros fuel Hfuel.
  - by destruct fuel.
  - destruct fuel as [|fuel]; [simpl in Hfuel; lia|].
    rewrite fmap_cons. cbn [concat]. unfold entry_bytes at 1.
    cbn [fst snd] in *. cbn [app parse_items].
    rewrite <- !app_assoc, read_field_entry. cbn [app].
    rewrite read_field_entry.
    rewrite (str_decode_encode _ _ Hkey), (str_decode_encode _ _ Hvalue).
    rewrite IH by (simpl in Hfuel; lia). done.
Qed.

(** Whatever [encode_items] returns is the encoding of entries that fit. *)
Lemma encode_items_returned items : ∀ buffer output,
  encode_items items buffer = Returned output →
  ∃ encoded,
    Forall2 encodes_to items encoded ∧
    output = buffer ++ concat (entry_bytes <$> encoded).
Proof.
  induction items as [|[key value] items IH]; intros buffer output; simpl.
  - intros [= <-]. exists []. split; [constructor|by rewrite app_nil_r].
  - destruct (str_encode key) as [key_bytes|] eqn:Hkey; [|done]. simpl.
    destruct (to_bytes_1 (length key_bytes)) as [key_len|] eqn:Hklen; [|done].
    apply to_bytes_1_returned in Hklen as [Hklen ->]. simpl.
    destruct (str_encode value) as [value_bytes|] eqn:Hvalue; [|done]. simpl.
    destruct (to_bytes_1 (length value_bytes)) as [value_len|] eqn:Hvlen;
      [|done].
    apply to_bytes_1_returned in Hvlen as [Hvlen ->]. simpl.
    intros (encoded & Hfits & ->)%IH.
    exists ((key_bytes, value_bytes) :: encoded). split.
    + by constructor.
    + unfold entry_bytes. simpl. by rewrite <- app_assoc.
Qed.

Lemma encodes_to_fits entry :
  fits entry.1 ∧ fits entry.2 ↔ ∃ encoded, encodes_to entry encoded.
Proof.
  unfold fits, encodes_to. split.
  - intros [(key_bytes & ? & ?) (value_bytes & ? & ?)].
    by exists (key_bytes, value_bytes).
  - intros ([key_bytes value_bytes] & ? & ? & ? & ?). simpl in *.
    split; eexists; eauto.
Qed.

Lemma Forall_fits_encoded data :
  Forall (λ entry, fits entry.1 ∧ fits entry.2) data →
  ∃ encoded, Forall2 encodes_to data encoded.
Proof.
  induction 1 as [|entry data [e He]%encodes_to_fits _ [encoded IH]].
  - exists []. constructor.
  - exists (e :: encoded). by constructor.
Qed.

Lemma encoded_length encoded :
  (length encoded ≤ length (concat (entry_bytes <$> encoded)))%nat.
Proof.
  induction encoded as [|entry encoded IH]; [simpl; lia|].
  rewrite fmap_cons. cbn [concat length]. unfold entry_bytes in *.
  rewrite !length_app. cbn [length]. lia.
Qed.

(** ** The insertion-ordered dict *)

Lemma dict_set_fresh data key value :
  key ∉ data.*1 → dict_set data key value = data ++ [(key, value)].
Proof.
  induction data as [|[key' value'] data IH]; simpl; [done|].
  intros Hfresh. apply not_elem_of_cons in Hfresh as [Hne Hfresh].
  rewrite decide_False by done. by rewrite IH.
Qed.

(** Storing entries with distinct fresh keys, one after the other, appends
    them in order. *)
Lemma dict_of_items items : ∀ data,
  NoDup ((data ++ items).*1) →
  foldl (λ data '(key, value), dict_set data key value) data items
  = data ++ items.
Proof.
  induction items as [|[key value] items IH]; intros data Hnodup; simpl.
  - by rewrite app_nil_r.
  - rewrite dict_set_fresh.
    + rewrite IH; rewrite <- app_assoc; done.
    + rewrite fmap_app in Hnodup. apply NoDup_app in Hnodup as (_ & Hfresh & _).
      intros Hin. apply (Hfresh key Hin). simpl. apply elem_of_cons. by left.
Qed.

Lemma parse_items_encode data buffer fuel :
  encode_product_metadata data = Returned buffer →
  (length data ≤ fuel)%nat →
  parse_items fuel buffer = Some (Some data).
Proof.
  intros (encoded & Hfits & ->)%encode_items_returned Hfuel.
  by apply parse_items_encoded.
Qed.

Lemma encode_product_metadata_inj data data' buffer :
  encode_product_metadata data = Returned buffer →
  encode_product_metadata data' = Returned buffer →
  data' = data.
Proof.
  intros Hdata Hdata'.
  pose proof (parse_items_encode data buffer (length data `max` length data')
                Hdata (Nat.le_max_l _ _)) as Hparse.
  pose proof (parse_items_encode data' buffer (length data `max` length data')
                Hdata' (Nat.le_max_r _ _)) as Hparse'.
  congruence.
Qed.

(** C8. A metadata mapping (an ordered list of entries with distinct keys)
    whose keys and values all encode to at most 255 bytes is encoded to a
    buffer from which the decoder returns the same entries in the same
    order; and no other list of entries is encoded to that buffer. *)
Theorem encode_product_metadata_round_trip (data : list (list N * list N)) :
  NoDup data.*1 →
  Forall (λ entry, fits entry.1 ∧ fits entry.2) data →
  ∃ buffer,
    encode_product_metadata data = Returned buffer ∧
    (∀ fuel, (length buffer ≤ fuel)%nat →
       decode_product_metadata fuel buffer = Some (Some data)) ∧
    (∀ data', encode_product_metadata data' = Returned buffer → data' = data).
Proof.
  intros Hnodup [encoded Hfits]%Forall_fits_encoded.
  exists (concat (entry_bytes <$> encoded)).
  assert (encode_product_metadata data
          = Returned (concat (entry_bytes <$> encoded))) as Hencode.
  { unfold encode_product_metadata. by rewrite (encode_items_fits _ encoded). }
  split_and!.
  - done.
  - intros fuel Hfuel. unfold decode_product_metadata.
    rewrite (parse_items_encoded data encoded Hfits).
    + by rewrite (dict_of_items data []).
    + pose proof (encoded_length encoded) as Hlen.
      apply Forall2_length in Hfits. lia.
  - intros data' Hdata'. by eapply encode_product_metadata_inj.
Qed.

Lemma encode_product_metadata_round_trip_witness :
  ∃ buffer,
    encode_product_metadata [([0x61], [0xE9]); ([0x20AC], [0x1F600; 0x62])]
    = Returned buffer ∧
    (∀ fuel, (length buffer ≤ fuel)%nat →
       decode_product_metadata fuel buffer
       = Some (Some [([0x61], [0xE9]); ([0x20AC], [0x1F600; 0x62])])) ∧
    (∀ data', encode_product_metadata data' = Returned buffer →
              data' = [([0x61], [0xE9]); ([0x20AC], [0x1F600; 0x62])]).
Proof.
  apply encode_product_metadata_round_trip.
  - refine (bool_decide_unpack _ _). vm_compute. exact I.
  - repeat constructor; eexists; (split; [vm_compute; reflexivity|simpl; lia]).
Defined.

(* ===================================================================== *)
(** * Part IV: further properties                                         *)
(* ===================================================================== *)

(** ** [sort_mapping_account_keys] on arbitrary collections *)

Lemma scan_accounts_previous_link accounts a b :
  (scan_accounts accounts).1 !! b = Some a → (a, b) ∈ links accounts.
Proof.
  rewrite (proj1 (scan_accounts_spec accounts)).
  intros (account & Hlast & ->)%fmap_Some.
  apply last_Some_elem_of, list_elem_of_filter in Hlast as [Hnext Hin].
  apply list_elem_of_fmap. exists account. by rewrite Hnext.
Qed.

Lemma scan_accounts_last_link accounts last_key :
  (scan_accounts accounts).2 = Some last_key → (last_key, 0) ∈ links accounts.
Proof.
  intros Hlast. apply scan_accounts_previous_link.
  destruct (scan_accounts_spec accounts) as [Hprev Hlast'].
  by rewrite Hprev, <- Hlast'.
Qed.

Lemma links_keys accounts a b :
  (a, b) ∈ links accounts → a ∈ public_key <$> accounts.
Proof.
  intros (account & [= -> _] & Hin)%list_elem_of_fmap.
  by apply list_elem_of_fmap_2.
Qed.

(** Too little fuel: the loop is cut short. *)
Lemma walk_short fuel : ∀ n previous_keys sorted_keys current,
  (length sorted_keys + fuel < n)%nat →
  walk fuel n previous_keys sorted_keys current = None.
Proof.
  induction fuel as [|fuel IH]; intros n previous_keys sorted_keys current Hn;
    simpl; (case_decide; [|lia]); [done|].
  apply IH. simpl. lia.
Qed.

Lemma walk_returned fuel n previous_keys last_key sorted_keys :
  walk fuel n previous_keys [] last_key = Some sorted_keys →
  sorted_keys = (walk_state previous_keys n last_key).1.
Proof.
  destruct (decide (n ≤ fuel)%nat) as [Hle|Hgt].
  - rewrite walk_from_tail by done. by intros [= <-].
  - rewrite walk_short by (simpl; lia). done.
Qed.

(** What a returned list is: empty for the empty collection, otherwise the
    state of the walk from the last tail after [len(accounts)] iterations. *)
Lemma sort_returned fuel accounts sorted_keys :
  sort_mapping_account_keys fuel accounts = Some (Returned sorted_keys) →
  (accounts = [] ∧ sorted_keys = [])
  ∨ ∃ last_key,
      (scan_accounts accounts).2 = Some last_key ∧
      sorted_keys
      = (walk_state (scan_accounts accounts).1 (length accounts) last_key).1.
Proof.
  unfold sort_mapping_account_keys.
  destruct accounts as [|account accounts]; [intros [= <-]; by left|].
  destruct (scan_accounts (account :: accounts)) as [previous_keys [last_key|]];
    [|done].
  destruct (walk _ _ _ _ _) as [keys|] eqn:Hwalk; [|done].
  intros [= <-]. right. exists last_key. split; [done|].
  by apply walk_returned in Hwalk.
Qed.

(** The invariant of the backward walk: the keys produced so far and the
    current key are keys of accounts; two neighbours are equal or joined by
    an account, and so are the current key and the first key produced. *)
Lemma walk_state_linked accounts last_key j :
  (scan_accounts accounts).2 = Some last_key →
  let st := walk_state (scan_accounts accounts).1 j last_key in
  (∀ a b, (a, b) ∈ chain_links st.1 → a = b ∨ (a, b) ∈ links accounts)
  ∧ (st.2 = hd 0 st.1 ∨ (st.2, hd 0 st.1) ∈ links accounts)
  ∧ (∀ key, key ∈ st.1 → key ∈ public_key <$> accounts)
  ∧ st.2 ∈ public_key <$> accounts.
Proof.
  intros Hlast. pose proof (scan_accounts_last_link _ _ Hlast) as Hlink.
  cbv zeta.
  induction j as [|j (IHpairs & IHhead & IHkeys & IHcurrent)].
  - simpl. split_and!.
    + by intros a b ?%elem_of_nil.
    + by right.
    + by intros key ?%elem_of_nil.
    + by eapply links_keys.
  - rewrite walk_state_S. unfold walk_step. simpl.
    destruct (walk_state _ j last_key) as [sorted_keys current]. simpl in *.
    split_and!.
    + intros a b [[= -> ->]|Hin]%elem_of_cons; [done|by apply IHpairs].
    + unfold step_back.
      destruct (_ !! current) as [previous|] eqn:Hprev; [|by left].
      right. by apply scan_accounts_previous_link.
    + intros key [->|Hin]%elem_of_cons; [done|by apply IHkeys].
    + unfold step_back.
      destruct (_ !! current) as [previous|] eqn:Hprev; [|done].
      eapply links_keys. by apply scan_accounts_previous_link.
Qed.

(** X1. Whatever the collection, every key of a returned list is the public
    key of one of the accounts: the function invents no key. *)
Theorem sort_mapping_account_keys_keys_of_accounts
    (accounts : list PythMappingAccount) (fuel : nat) (sorted_keys : list N) :
  sort_mapping_account_keys fuel accounts = Some (Returned sorted_keys) →
  ∀ key, key ∈ sorted_keys → key ∈ public_key <$> accounts.
Proof.
  intros [[_ ->]|(last_key & Hlast & ->)]%sort_returned key Hkey.
  - by apply elem_of_nil in Hkey.
  - by apply (walk_state_linked accounts last_key (length accounts) Hlast).
Qed.

Lemma sort_mapping_account_keys_keys_of_accounts_witness :
  2 ∈ public_key <$> [mapping_account 1 9 []; mapping_account 2 0 []].
Proof.
  apply (sort_mapping_account_keys_keys_of_accounts
           [mapping_account 1 9 []; mapping_account 2 0 []] 2 [2; 2]).
  - reflexivity.
  - apply elem_of_cons. by left.
Defined.

(** X2. Whatever the collection, two neighbours [a; b] of a returned list
    are either the same key (the padding of a walk that found no
    predecessor) or the key and the next key of one account; and the list
    ends with the key of an account whose next key is zero. *)
Theorem sort_mapping_account_keys_neighbours
    (accounts : list PythMappingAccount) (fuel : nat) (sorted_keys : list N) :
  accounts ≠ [] →
  sort_mapping_account_keys fuel accounts = Some (Returned sorted_keys) →
  (∀ before a b after,
     sorted_keys = before ++ a :: b :: after →
     a = b ∨ (a, b) ∈ links accounts)
  ∧ ∃ last_key, last sorted_keys = Some last_key
                ∧ (last_key, 0) ∈ links accounts.
Proof.
  intros Hne [[-> _]|(last_key & Hlast & ->)]%sort_returned; [done|].
  split.
  - intros before a b after Hkeys.
    apply (walk_state_linked accounts last_key (length accounts) Hlast).
    rewrite Hkeys. apply chain_links_adjacent.
  - exists last_key. split; [|by apply scan_accounts_last_link].
    destruct accounts as [|account accounts]; [done|]. apply walk_state_last.
Qed.

Lemma sort_mapping_account_keys_neighbours_witness :
  (∀ before a b after,
     [2; 1; 3] = before ++ a :: b :: after →
     a = b ∨ (a, b) ∈ links [mapping_account 1 3 []; mapping_account 3 0 [];
                             mapping_account 2 1 []])
  ∧ ∃ last_key, last [2; 1; 3] = Some last_key
                ∧ (last_key, 0) ∈ links [mapping_account 1 3 [];
                                         mapping_account 3 0 [];
                                         mapping_account 2 1 []].
Proof.
  apply (sort_mapping_account_keys_neighbours
           [mapping_account 1 3 []; mapping_account 3 0 [];
            mapping_account 2 1 []] 3 [2; 1; 3]).
  - discriminate.
  - reflexivity.
Defined.

Lemma chain_links_keys chain : (chain_links chain).*1 = chain.
Proof.
  induction chain as [|key rest IH]; [done|].
  cbn [chain_links]. rewrite fmap_cons. by f_equal.
Qed.

(** The pairs of [chain_links]: two neighbours, or the last key and zero. *)
Lemma chain_links_cases chain a b :
  (a, b) ∈ chain_links chain →
  (∃ before after, chain = before ++ a :: b :: after)
  ∨ (b = 0 ∧ last chain = Some a).
Proof.
  induction chain as [|key rest IH]; simpl.
  - by intros ?%elem_of_nil.
  - intros [[= -> ->]|Hin]%elem_of_cons.
    + destruct rest as [|key' rest]; [by right|].
      left. by exists [], rest.
    + destruct (IH Hin) as [(before & after & ->)|[-> Hlast]].
      * left. by exists (key :: before), after.
      * right. split; [done|]. by rewrite last_cons, Hlast.
Qed.

Lemma NoDup_neighbours {A} (l before after : list A) a b :
  NoDup l → l = before ++ a :: b :: after → a ≠ b.
Proof.
  intros Hnodup -> ->.
  apply NoDup_app in Hnodup as (_ & _ & Hnodup).
  apply NoDup_cons in Hnodup as [Hfresh _].
  apply Hfresh, elem_of_cons. by left.
Qed.

(** A returned list without duplicates spells out the links of the
    accounts. *)
Lemma sort_returned_nodup accounts fuel sorted_keys :
  sort_mapping_account_keys fuel accounts = Some (Returned sorted_keys) →
  NoDup sorted_keys →
  links accounts ≡ₚ chain_links sorted_keys.
Proof.
  intros Hsort Hnodup.
  destruct (sort_returned _ _ _ Hsort) as [[-> ->]|(last_key & Hlast & Hkeys)];
    [done|].
  destruct (walk_state_linked accounts last_key (length accounts) Hlast)
    as (Hpairs & _).
  rewrite <- Hkeys in Hpairs.
  assert (length sorted_keys = length accounts) as Hlen
    by (rewrite Hkeys; apply walk_state_length).
  symmetry. apply submseteq_length_Permutation.
  - apply NoDup_submseteq.
    + apply (NoDup_fmap_1 fst). by rewrite chain_links_keys.
    + intros [a b] Hin.
      destruct (chain_links_cases _ _ _ Hin)
        as [(before & after & Hsplit)|[-> Hend]].
      * destruct (Hpairs a b Hin) as [Heq|Hlink]; [|done].
        by destruct (NoDup_neighbours _ _ _ _ _ Hnodup Hsplit).
      * assert (last sorted_keys = Some last_key) as Hend'.
        { rewrite Hkeys. destruct accounts as [|account accounts].
          - by rewrite Hkeys in Hend.
          - apply walk_state_last. }
        rewrite Hend in Hend'. injection Hend' as ->.
        by apply scan_accounts_last_link.
  - rewrite links_length, chain_links_length. lia.
Qed.

(** X3. A returned list without duplicates certifies the input: the
    accounts are then exactly the links of the chain that the list spells
    out, each key pointing to its right neighbour and the last one to
    zero. *)
Theorem sort_mapping_account_keys_nodup_certifies
    (accounts : list PythMappingAccount) (fuel : nat) (sorted_keys : list N) :
  sort_mapping_account_keys fuel accounts = Some (Returned sorted_keys) →
  NoDup sorted_keys →
  links accounts ≡ₚ chain_links sorted_keys.
Proof. apply sort_returned_nodup. Qed.

Lemma sort_mapping_account_keys_nodup_certifies_witness :
  links [mapping_account 3 0 []; mapping_account 1 2 []; mapping_account 2 3 []]
  ≡ₚ chain_links [1; 2; 3].
Proof.
  apply (sort_mapping_account_keys_nodup_certifies
           [mapping_account 3 0 []; mapping_account 1 2 [];
            mapping_account 2 3 []] 3 [1; 2; 3]).
  - reflexivity.
  - refine (bool_decide_unpack _ _). vm_compute. exact I.
Defined.

(** When no two accounts share their next key, at most one account points
    to any key. *)
Lemma pointing_to_at_most_one accounts key :
  NoDup (next_key <$> accounts) →
  pointing_to key accounts = []
  ∨ ∃ account, pointing_to key accounts = [account].
Proof.
  intros Hnodup.
  destruct (pointing_to key accounts) as [|account rest] eqn:Hpoint;
    [by left|right].
  assert (account ∈ pointing_to key accounts) as Hin
    by (rewrite Hpoint; apply elem_of_cons; by left).
  apply list_elem_of_filter in Hin as [<- Hin].
  exists account. rewrite <- Hpoint. by apply pointing_to_unique.
Qed.

Lemma pointing_to_permutation accounts accounts' key :
  accounts ≡ₚ accounts' →
  NoDup (next_key <$> accounts) →
  pointing_to key accounts' = pointing_to key accounts.
Proof.
  intros Hperm Hnodup.
  assert (pointing_to key accounts ≡ₚ pointing_to key accounts') as Hfilter
    by (unfold pointing_to; by rewrite Hperm).
  destruct (pointing_to_at_most_one accounts key Hnodup)
    as [Hnone|[account Hone]].
  - rewrite Hnone in Hfilter |- *. by apply Permutation_nil_l in Hfilter.
  - rewrite Hone in Hfilter |- *. by apply Permutation_singleton_l in Hfilter.
Qed.

Lemma scan_accounts_permutation accounts accounts' :
  accounts ≡ₚ accounts' →
  NoDup (next_key <$> accounts) →
  scan_accounts accounts' = scan_accounts accounts.
Proof.
  intros Hperm Hnodup.
  destruct (scan_accounts_spec accounts) as [Hprev Hlast].
  destruct (scan_accounts_spec accounts') as [Hprev' Hlast'].
  destruct (scan_accounts accounts) as [previous_keys last_key].
  destruct (scan_accounts accounts') as [previous_keys' last_key'].
  simpl in *. f_equal.
  - apply map_eq. intros key.
    by rewrite Hprev, Hprev', (pointing_to_permutation accounts).
  - by rewrite Hlast, Hlast', (pointing_to_permutation accounts).
Qed.

(** X4. When no two accounts share their next key, the result does not
    depend on the order in which the accounts are given: any permutation of
    the collection gives the same outcome, be it a list or the error. *)
Theorem sort_mapping_account_keys_order_independent
    (accounts accounts' : list PythMappingAccount) (fuel : nat) :
  accounts ≡ₚ accounts' →
  NoDup (next_key <$> accounts) →
  sort_mapping_account_keys fuel accounts'
  = sort_mapping_account_keys fuel accounts.
Proof.
  intros Hperm Hnodup. unfold sort_mapping_account_keys.
  rewrite (scan_accounts_permutation accounts accounts') by done.
  rewrite <- (Permutation_length Hperm).
  destruct accounts as [|account accounts].
  - by apply Permutation_nil_l in Hperm as <-.
  - destruct accounts' as [|account' accounts']; [|done].
    by apply Permutation_nil_r in Hperm.
Qed.

Lemma sort_mapping_account_keys_order_independent_witness :
  sort_mapping_account_keys 3
    [mapping_account 2 0 []; mapping_account 1 9 []; mapping_account 4 2 []]
  = sort_mapping_account_keys 3
      [mapping_account 1 9 []; mapping_account 4 2 []; mapping_account 2 0 []].
Proof.
  apply (sort_mapping_account_keys_order_independent
           [mapping_account 1 9 []; mapping_account 4 2 [];
            mapping_account 2 0 []]
           [mapping_account 2 0 []; mapping_account 1 9 [];
            mapping_account 4 2 []] 3).
  - apply (Permutation_app_comm
             [mapping_account 1 9 []; mapping_account 4 2 []]
             [mapping_account 2 0 []]).
  - refine (bool_decide_unpack _ _). vm_compute. exact I.
Defined.

(** ** [apply_overrides], further *)

(** X5. Applying the overrides of a network a second time changes nothing:
    the permissions already resolved for a network are a fixed point. *)
Theorem apply_overrides_idempotent
    (ref_permissions : gmap string (gmap string (list string)))
    (ref_overrides : gmap string (gmap string bool))
    (network : string) :
  apply_overrides (apply_overrides ref_permissions ref_overrides network)
    ref_overrides network
  = apply_overrides ref_permissions ref_overrides network.
Proof.
  apply map_eq. intros symbol. rewrite !apply_overrides_lookup.
  destruct (ref_permissions !! symbol) as [value|]; [|done]. simpl.
  destruct (revoked _ symbol); [|done].
  f_equal. apply map_eq. intros account_type.
  rewrite !lookup_fmap. by destruct (value !! account_type).
Qed.

(** X6. Overrides only take away: every publisher list of the result sits
    at a symbol and an account type of the input and is either the list the
    input has there or the empty list, so no publisher is ever added. *)
Theorem apply_overrides_never_grants
    (ref_permissions : gmap string (gmap string (list string)))
    (ref_overrides : gmap string (gmap string bool))
    (network symbol account_type : string)
    (value : gmap string (list string)) (publishers : list string) :
  apply_overrides ref_permissions ref_overrides network !! symbol = Some value →
  value !! account_type = Some publishers →
  ∃ ref_value ref_publishers,
    ref_permissions !! symbol = Some ref_value ∧
    ref_value !! account_type = Some ref_publishers ∧
    (publishers = ref_publishers ∨ publishers = []).
Proof.
  rewrite apply_overrides_lookup.
  intros (ref_value & Href & ->)%fmap_Some.
  destruct (revoked _ symbol).
  - rewrite lookup_fmap. intros (ref_publishers & Hpub & ->)%fmap_Some.
    exists ref_value, ref_publishers. auto.
  - intros Hpub. exists ref_value, publishers. auto.
Qed.

Lemma apply_overrides_never_grants_witness :
  ∃ ref_value ref_publishers,
    ({["BTC/USD" := {["price" := ["pub1"; "pub2"]]}]}
       : gmap string (gmap string (list string))) !! "BTC/USD"
    = Some ref_value ∧
    ref_value !! "price" = Some ref_publishers ∧
    ([] = ref_publishers ∨ [] = @nil string).
Proof.
  apply (apply_overrides_never_grants
           {["BTC/USD" := {["price" := ["pub1"; "pub2"]]}]}
           {["mainnet" := {["BTC/USD" := false]}]}
           "mainnet" "BTC/USD" "price" {["price" := []]} []).
  - vm_compute. reflexivity.
  - vm_compute. reflexivity.
Defined.

(** ** [get_actual_signers], further *)

(** X7. The signers of a pool given in two parts are the signers of the
    first part followed by those of the second, and the function is
    idempotent: the actual signers of the actual signers are themselves. *)
Theorem get_actual_signers_pool
    (signers signers' : list Keypair) (transaction : Transaction) :
  get_actual_signers (signers ++ signers') transaction
  = get_actual_signers signers transaction
    ++ get_actual_signers signers' transaction
  ∧ get_actual_signers (get_actual_signers signers transaction) transaction
    = get_actual_signers signers transaction.
Proof.
  rewrite !get_actual_signers_filter. split.
  - apply filter_app.
  - rewrite list_filter_filter. apply list_filter_iff. tauto.
Qed.

Lemma signs_app signer instructions1 instructions2 :
  signs {| instructions := instructions1 ++ instructions2 |} signer
  ↔ signs {| instructions := instructions1 |} signer
    ∨ signs {| instructions := instructions2 |} signer.
Proof. unfold signs. simpl. apply Exists_app. Qed.

(** X8. A keypair is an actual signer of a transaction made of two runs of
    instructions exactly when it is one for either run; a transaction
    without instructions has no signers. *)
Theorem get_actual_signers_instructions
    (signers : list Keypair)
    (instructions1 instructions2 : list TransactionInstruction) :
  (∀ signer,
     signer ∈ get_actual_signers signers
                {| instructions := instructions1 ++ instructions2 |}
     ↔ signer ∈ get_actual_signers signers {| instructions := instructions1 |}
       ∨ signer ∈ get_actual_signers signers {| instructions := instructions2 |})
  ∧ get_actual_signers signers {| instructions := [] |} = [].
Proof.
  rewrite !get_actual_signers_filter. split.
  - intros signer. rewrite !list_elem_of_filter, signs_app. tauto.
  - induction signers as [|signer signers IH]; [done|].
    rewrite filter_cons, decide_False; [done|].
    unfold signs. simpl. by intros ?%Exists_nil.
Qed.

(** X9. A missing keypair is no error: for a key that some instruction of
    the transaction requires as a signer, the result holds a keypair with
    that key exactly when the pool does. *)
Theorem get_actual_signers_covers
    (signers : list Keypair) (transaction : Transaction)
    (instruction : TransactionInstruction) (account : AccountMeta) :
  instruction ∈ instructions transaction →
  account ∈ keys instruction →
  is_signer account = true →
  (∃ signer, signer ∈ get_actual_signers signers transaction
             ∧ keypair_public_key signer = pubkey account)
  ↔ (∃ signer, signer ∈ signers
               ∧ keypair_public_key signer = pubkey account).
Proof.
  intros Hinstruction Haccount Hsigner.
  rewrite get_actual_signers_filter.
  split; intros (signer & Hin & Hkey); exists signer.
  - apply list_elem_of_filter in Hin as [_ Hin]. done.
  - split; [|done]. apply list_elem_of_filter. split; [|done].
    unfold signs. apply Exists_exists. exists instruction. split; [done|].
    apply Exists_exists. exists account. done.
Qed.

Lemma get_actual_signers_covers_witness :
  (∃ signer,
     signer ∈ get_actual_signers
                [ {| keypair_public_key := 1; secret_key := [] |} ]
                {| instructions :=
                     [ {| keys := [ {| pubkey := 5; is_signer := true;
                                       is_writable := true |} ];
                          program_id := 7; instruction_data := [] |} ] |}
     ∧ keypair_public_key signer = 5)
  ↔ (∃ signer,
       signer ∈ [ {| keypair_public_key := 1; secret_key := [] |} ]
       ∧ keypair_public_key signer = 5).
Proof.
  apply (get_actual_signers_covers
           [ {| keypair_public_key := 1; secret_key := [] |} ]
           {| instructions :=
                [ {| keys := [ {| pubkey := 5; is_signer := true;
                                  is_writable := true |} ];
                     program_id := 7; instruction_data := [] |} ] |}
           {| keys := [ {| pubkey := 5; is_signer := true;
                           is_writable := true |} ];
              program_id := 7; instruction_data := [] |}
           {| pubkey := 5; is_signer := true; is_writable := true |}).
  - apply elem_of_cons. by left.
  - apply elem_of_cons. by left.
  - reflexivity.
Defined.

(** ** [encode_product_metadata], further *)

(** The buffer the loop starts from is a prefix of its result and plays no
    other part. *)
Lemma encode_items_buffer items : ∀ buffer,
  encode_items items buffer
  = output ← encode_items items []; mret (buffer ++ output).
Proof.
  induction items as [|[key value] items IH]; intros buffer; simpl.
  - by rewrite app_nil_r.
  - destruct (str_encode key) as [key_bytes|]; [|done]. simpl.
    destruct (to_bytes_1 (length key_bytes)) as [key_len|]; [|done]. simpl.
    destruct (str_encode value) as [value_bytes|]; [|done]. simpl.
    destruct (to_bytes_1 (length value_bytes)) as [value_len|]; [|done]. simpl.
    rewrite IH. rewrite (IH (_ ++ _)).
    destruct (encode_items items []) as [output|]; [|done]. simpl.
    by rewrite <- !app_assoc.
Qed.

Lemma encode_items_app items1 items2 : ∀ buffer,
  encode_items (items1 ++ items2) buffer
  = output ← encode_items items1 buffer; encode_items items2 output.
Proof.
  induction items1 as [|[key value] items1 IH]; intros buffer; simpl; [done|].
  destruct (str_encode key) as [key_bytes|]; [|done]. simpl.
  destruct (to_bytes_1 (length key_bytes)) as [key_len|]; [|done]. simpl.
  destruct (str_encode value) as [value_bytes|]; [|done]. simpl.
  destruct (to_bytes_1 (length value_bytes)) as [value_len|]; [|done]. simpl.
  apply IH.
Qed.

(** X10. Encoding is compositional: the encoding of two mappings one after
    the other is the encoding of the first followed by that of the second;
    if the first raises, the whole raises the same exception, and otherwise
    if the second raises, the whole raises that one. *)
Theorem encode_product_metadata_app (data1 data2 : list (list N * list N)) :
  encode_product_metadata (data1 ++ data2)
  = buffer1 ← encode_product_metadata data1;
    buffer2 ← encode_product_metadata data2;
    mret (buffer1 ++ buffer2).
Proof.
  unfold encode_product_metadata. rewrite encode_items_app.
  destruct (encode_items data1 []) as [buffer1|]; [|done]. simpl.
  apply encode_items_buffer.
Qed.

Lemma Forall2_encodes_to_fits data encoded :
  Forall2 encodes_to data encoded →
  Forall (λ entry, fits entry.1 ∧ fits entry.2) data.
Proof.
  induction 1 as [|entry e data encoded He _ IH]; constructor; [|done].
  apply encodes_to_fits. by exists e.
Qed.

(** X11. The function returns a buffer exactly when every key and every
    value encodes to at most 255 bytes. *)
Theorem encode_product_metadata_returns_iff (data : list (list N * list N)) :
  (∃ buffer, encode_product_metadata data = Returned buffer)
  ↔ Forall (λ entry, fits entry.1 ∧ fits entry.2) data.
Proof.
  split.
  - intros [buffer (encoded & Hfits & _)%encode_items_returned].
    by eapply Forall2_encodes_to_fits.
  - intros [encoded Hfits]%Forall_fits_encoded.
    eexists. unfold encode_product_metadata. by apply encode_items_fits.
Qed.

Lemma utf8_char_encodable c :
  c < 0x110000 → ¬ (0xD800 ≤ c ∧ c ≤ 0xDFFF) →
  ∃ char_bytes, utf8_char c = Returned char_bytes
                ∧ (1 ≤ length char_bytes ≤ 4)%nat.
Proof.
  intros Hc Hsurrogate. unfold utf8_char.
  repeat match goal with
    | |- context [N.ltb ?a ?b] => destruct (N.ltb_spec a b)
    | |- context [N.leb ?a ?b] => destruct (N.leb_spec a b)
    end; cbn [andb]; try lia; eexists; (split; [done|simpl; lia]).
Qed.

Lemma str_encode_encodable s :
  encodable s →
  ∃ s_bytes, str_encode s = Returned s_bytes
             ∧ (length s ≤ length s_bytes ≤ 4 * length s)%nat.
Proof.
  induction 1 as [|c s [Hc Hsurrogate] _ (rest & Hrest & Hlen)]; simpl.
  - exists []. simpl. split; [done|lia].
  - destruct (utf8_char_encodable c Hc Hsurrogate) as (char_bytes & -> & Hchar).
    simpl. rewrite Hrest. simpl. eexists. split; [done|].
    rewrite length_app. lia.
Qed.

Lemma to_bytes_1_raised n e : to_bytes_1 n = Raised e → e = OverflowError.
Proof.
  unfold to_bytes_1. destruct (n <=? 255)%nat; [done|]. by intros [= <-].
Qed.

(** With encodable strings only, whatever [encode_items] raises is
    [OverflowError]. *)
Lemma encode_items_overflow items :
  Forall (λ entry, encodable entry.1 ∧ encodable entry.2) items →
  ∀ buffer e, encode_items items buffer = Raised e → e = OverflowError.
Proof.
  induction 1 as [|[key value] items [Hkey Hvalue] _ IH]; intros buffer e;
    simpl in *; [done|].
  destruct (str_encode_encodable key Hkey) as (key_bytes & -> & _). simpl.
  destruct (to_bytes_1 (length key_bytes)) as [key_len|e'] eqn:Hklen; simpl;
    [|intros [= <-]; by eapply to_bytes_1_raised].
  destruct (str_encode_encodable value Hvalue) as (value_bytes & -> & _). simpl.
  destruct (to_bytes_1 (length value_bytes)) as [value_len|e'] eqn:Hvlen; simpl;
    [|intros [= <-]; by eapply to_bytes_1_raised].
  apply IH.
Qed.

(** X12. When no key or value holds a surrogate, so that every string can
    be encoded, the only failure is the one-byte length: as soon as some key
    or value does not fit, the function raises [OverflowError]. *)
Theorem encode_product_metadata_overflow (data : list (list N * list N)) :
  Forall (λ entry, encodable entry.1 ∧ encodable entry.2) data →
  ¬ Forall (λ entry, fits entry.1 ∧ fits entry.2) data →
  encode_product_metadata data = Raised OverflowError.
Proof.
  intros Hencodable Hfits.
  destruct (encode_product_metadata data) as [buffer|e] eqn:Hencode.
  - destruct Hfits. apply encode_product_metadata_returns_iff. by exists buffer.
  - f_equal. by eapply encode_items_overflow.
Qed.

Lemma encode_product_metadata_overflow_witness :
  encode_product_metadata [([0x61], replicate 128 0xE9)] = Raised OverflowError.
Proof.
  apply encode_product_metadata_overflow.
  - repeat constructor; lia.
  - intros Hfits. apply Forall_cons in Hfits as [[_ (s_bytes & Hs & Hlen)] _].
    vm_compute in Hs. injection Hs as <-. vm_compute in Hlen. lia.
Defined.

Lemma str_encode_ascii s : ascii s → str_encode s = Returned s.
Proof.
  induction 1 as [|c s Hc _ IH]; simpl; [done|].
  unfold utf8_char. rewrite (proj2 (N.ltb_lt _ _) Hc). simpl.
  by rewrite IH.
Qed.

(** X13. ASCII metadata is stored as it is written: when every key and
    value is made of code points below 128 and has at most 255 of them, the
    function returns, for each entry in order, the length of the key, its
    characters, the length of the value and its characters. *)
Theorem encode_product_metadata_ascii (data : list (list N * list N)) :
  Forall (λ entry, (ascii entry.1 ∧ (length entry.1 ≤ 255)%nat)
                   ∧ (ascii entry.2 ∧ (length entry.2 ≤ 255)%nat)) data →
  encode_product_metadata data = Returned (concat (entry_bytes <$> data)).
Proof.
  intros Hascii. unfold encode_product_metadata.
  rewrite (encode_items_fits data data); [done|].
  induction Hascii as [|entry data [[Hkey Hklen] [Hvalue Hvlen]] _ IH];
    constructor; [|done].
  unfold encodes_to. by rewrite !str_encode_ascii.
Qed.

Lemma encode_product_metadata_ascii_witness :
  encode_product_metadata [([0x61; 0x62], [0x63]); ([0x64], [])]
  = Returned [2; 0x61; 0x62; 1; 0x63; 1; 0x64; 0].
Proof.
  apply (encode_product_metadata_ascii
           [([0x61; 0x62], [0x63]); ([0x64], [])]).
  repeat constructor; simpl; lia.
Defined.

Lemma utf8_char_length c char_bytes :
  utf8_char c = Returned char_bytes → (1 ≤ length char_bytes ≤ 4)%nat.
Proof.
  unfold utf8_char.
  repeat match goal with
    | |- context [N.ltb ?a ?b] => destruct (N.ltb_spec a b)
    | |- context [N.leb ?a ?b] => destruct (N.leb_spec a b)
    end; cbn [andb]; intros [= <-]; simpl; lia.
Qed.

Lemma str_encode_length s : ∀ s_bytes,
  str_encode s = Returned s_bytes →
  (length s ≤ length s_bytes ≤ 4 * length s)%nat.
Proof.
  induction s as [|c s IH]; intros s_bytes; simpl.
  - intros [= <-]. simpl. lia.
  - destruct (utf8_char c) as [char_bytes|] eqn:Hchar; [|done]. simpl.
    destruct (str_encode s) as [rest|]; [|done]. simpl.
    intros [= <-]. apply utf8_char_length in Hchar.
    specialize (IH rest eq_refl). rewrite length_app. lia.
Qed.

(** X14. The limit is on bytes, not on characters, and a character takes
    one to four bytes: metadata whose keys and values are encodable and have
    at most 63 code points each is always accepted, and metadata with a key
    or a value of more than 255 code points is always refused. *)
Theorem encode_product_metadata_code_points (data : list (list N * list N)) :
  (Forall (λ entry, (encodable entry.1 ∧ (length entry.1 ≤ 63)%nat)
                    ∧ (encodable entry.2 ∧ (length entry.2 ≤ 63)%nat)) data →
   ∃ buffer, encode_product_metadata data = Returned buffer)
  ∧ (∀ key value,
       (key, value) ∈ data →
       (255 < length key)%nat ∨ (255 < length value)%nat →
       ∃ e, encode_product_metadata data = Raised e).
Proof.
  split.
  - intros Hshort. apply encode_product_metadata_returns_iff.
    eapply Forall_impl; [done|].
    intros [key value] [[Hkey Hklen] [Hvalue Hvlen]]. simpl in *.
    destruct (str_encode_encodable key Hkey) as (key_bytes & ? & ?).
    destruct (str_encode_encodable value Hvalue) as (value_bytes & ? & ?).
    split; eexists; (split; [done|lia]).
  - intros key value Hin Hlong.
    destruct (encode_product_metadata data) as [buffer|e] eqn:Hencode;
      [|by exists e].
    assert (Forall (λ entry, fits entry.1 ∧ fits entry.2) data) as Hfits
      by (apply encode_product_metadata_returns_iff; by exists buffer).
    rewrite Forall_forall in Hfits.
    destruct (Hfits _ Hin) as [(key_bytes & Hkey & ?) (value_bytes & Hvalue & ?)].
    simpl in *.
    apply str_encode_length in Hkey, Hvalue. lia.
Qed.

Lemma encode_product_metadata_code_points_witness :
  (∃ buffer,
     encode_product_metadata [(replicate 63 0x1F600, [0x20AC])]
     = Returned buffer)
  ∧ ∃ e, encode_product_metadata [([0x61], replicate 256 0x62)] = Raised e.
Proof.
  split.
  - apply (proj1 (encode_product_metadata_code_points
                    [(replicate 63 0x1F600, [0x20AC])])).
    repeat constructor; simpl; lia.
  - apply (proj2 (encode_product_metadata_code_points
                    [([0x61], replicate 256 0x62)])
             [0x61] (replicate 256 0x62)).
    + apply elem_of_cons. by left.
    + right. rewrite length_replicate. lia.
Defined.

Lemma entry_bytes_length encoded :
  Forall (λ entry : list N * list N,
            (length entry.1 ≤ 255)%nat ∧ (length entry.2 ≤ 255)%nat) encoded →
  (2 * length encoded ≤ length (concat (entry_bytes <$> encoded))
   ≤ 512 * length encoded)%nat.
Proof.
  induction 1 as [|entry encoded [Hkey Hvalue] _ IH]; [simpl; lia|].
  rewrite fmap_cons. cbn [concat length]. unfold entry_bytes in *.
  rewrite !length_app. cbn [length]. lia.
Qed.

(** X15. A returned buffer has between 2 and 512 bytes for each entry of the
    mapping; in particular it is empty only for the empty mapping. *)
Theorem encode_product_metadata_size
    (data : list (list N * list N)) (buffer : list N) :
  encode_product_metadata data = Returned buffer →
  (2 * length data ≤ length buffer ≤ 512 * length data)%nat.
Proof.
  intros (encoded & Hfits & ->)%encode_items_returned. simpl.
  rewrite (Forall2_length _ _ _ Hfits).
  apply entry_bytes_length.
  clear -Hfits. induction Hfits as [|entry e data encoded He _ IH];
    constructor; [|done].
  destruct He as (_ & ? & _ & ?). done.
Qed.

Lemma encode_product_metadata_size_witness :
  (2 * 1 ≤ length [1; 0x61; 2; 0xC3; 0xA9] ≤ 512 * 1)%nat.
Proof.
  apply (encode_product_metadata_size [([0x61], [0xE9])]
           [1; 0x61; 2; 0xC3; 0xA9]).
  reflexivity.
Defined.

(** ** [restore_links]: the jump symbols *)

Lemma invert_symbols_lookup items : ∀ jump_symbols inverted symbol,
  invert_symbols items jump_symbols = inr inverted →
  inverted !! symbol
  = match last (filter (λ item, ref_symbol item.2 = Some symbol) items) with
    | Some item => Some item.1
    | None => jump_symbols !! symbol
    end.
Proof.
  induction items as [|[jump_symbol product] items IH];
    intros jump_symbols inverted symbol; simpl.
  - by intros [= <-].
  - fold (ref_symbol product).
    destruct (ref_symbol product) as [symbol'|] eqn:Hsymbol; [|done].
    intros Hinverted. rewrite (IH _ _ symbol Hinverted).
    rewrite filter_cons. simpl. rewrite Hsymbol.
    destruct (decide (symbol' = symbol)) as [->|Hne].
    + rewrite decide_True by done. rewrite last_cons.
      destruct (last _); [done|]. by rewrite lookup_insert_eq.
    + rewrite decide_False by congruence.
      destruct (last _); [done|]. by rewrite lookup_insert_ne.
Qed.

Lemma invert_symbols_returns items : ∀ jump_symbols,
  Forall (λ item, is_Some (ref_symbol item.2)) items →
  ∃ inverted, invert_symbols items jump_symbols = inr inverted.
Proof.
  induction items as [|[jump_symbol product] items IH];
    intros jump_symbols Hall; simpl.
  - by eexists.
  - apply Forall_cons in Hall as [[symbol Hsymbol] Hall].
    unfold ref_symbol in Hsymbol. simpl in Hsymbol. rewrite Hsymbol.
    by apply IH.
Qed.

Lemma invert_symbols_raises items : ∀ jump_symbols,
  ¬ Forall (λ item, is_Some (ref_symbol item.2)) items →
  invert_symbols items jump_symbols = inl (KeyError "symbol").
Proof.
  induction items as [|[jump_symbol product] items IH];
    intros jump_symbols Hsome; simpl.
  - destruct Hsome. constructor.
  - fold (ref_symbol product).
    destruct (ref_symbol product) as [symbol|] eqn:Hsymbol; [|done].
    apply IH. intros Hall. apply Hsome. constructor; [|done].
    simpl. by rewrite Hsymbol.
Qed.

(** X16. The dict [jump_symbols] inverts the reference products: when every
    product has a ["symbol"], each symbol is bound to the jump symbol of the
    last product, in the order of the file, that carries it, and nothing
    else is bound; when some product has no ["symbol"], the loop raises
    [KeyError("symbol")]. *)
Theorem invert_symbols_spec (reference_products : list (string * ReferenceProduct)) :
  (Forall (λ item, is_Some (ref_symbol item.2)) reference_products →
   ∃ jump_symbols,
     invert_symbols reference_products ∅ = inr jump_symbols ∧
     ∀ symbol,
       jump_symbols !! symbol
       = fst <$> last (filter (λ item, ref_symbol item.2 = Some symbol)
                         reference_products))
  ∧ (¬ Forall (λ item, is_Some (ref_symbol item.2)) reference_products →
     invert_symbols reference_products ∅ = inl (KeyError "symbol")).
Proof.
  split.
  - intros Hall.
    destruct (invert_symbols_returns reference_products ∅ Hall)
      as [jump_symbols Hinverted].
    exists jump_symbols. split; [done|]. intros symbol.
    rewrite (invert_symbols_lookup _ _ _ symbol Hinverted).
    destruct (last _); [done|]. apply lookup_empty.
  - apply invert_symbols_raises.
Qed.

Lemma invert_symbols_spec_witness :
  (∃ jump_symbols,
     invert_symbols
       [("btc", {| ref_metadata := {["symbol" := "Crypto.BTC/USD"]} |});
        ("eth", {| ref_metadata := {["symbol" := "Crypto.ETH/USD"]} |})] ∅
     = inr jump_symbols ∧
     ∀ symbol,
       jump_symbols !! symbol
       = fst <$> last (filter (λ item, ref_symbol item.2 = Some symbol)
           [("btc", {| ref_metadata := {["symbol" := "Crypto.BTC/USD"]} |});
            ("eth", {| ref_metadata := {["symbol" := "Crypto.ETH/USD"]} |})]))
  ∧ invert_symbols [("btc", {| ref_metadata := ∅ |})] ∅
    = inl (KeyError "symbol").
Proof.
  split.
  - apply (proj1 (invert_symbols_spec
             [("btc", {| ref_metadata := {["symbol" := "Crypto.BTC/USD"]} |});
              ("eth", {| ref_metadata := {["symbol" := "Crypto.ETH/USD"]} |})])).
    repeat constructor; by eexists.
  - apply (proj2 (invert_symbols_spec [("btc", {| ref_metadata := ∅ |})])).
    intros [[symbol Hsymbol] _]%Forall_cons. done.
Defined.

(** X17. With pairwise distinct symbols the inversion is exact: the jump
    symbol found for the symbol of a product is the jump symbol of that
    product. *)
Theorem invert_symbols_distinct
    (reference_products : list (string * ReferenceProduct))
    (jump_symbols : gmap string string)
    (jump_symbol symbol : string) (product : ReferenceProduct) :
  NoDup ((λ item, ref_symbol item.2) <$> reference_products) →
  invert_symbols reference_products ∅ = inr jump_symbols →
  (jump_symbol, product) ∈ reference_products →
  ref_symbol product = Some symbol →
  jump_symbols !! symbol = Some jump_symbol.
Proof.
  intros Hnodup Hinverted Hin Hsymbol.
  rewrite (invert_symbols_lookup _ _ _ symbol Hinverted).
  assert (filter (λ item, ref_symbol item.2 = Some symbol) reference_products
          = [(jump_symbol, product)]) as ->; [|done].
  clear Hinverted.
  induction reference_products as [|item items IH].
  - by apply elem_of_nil in Hin.
  - rewrite fmap_cons in Hnodup. apply NoDup_cons in Hnodup as [Hfresh Hnodup].
    rewrite filter_cons.
    apply elem_of_cons in Hin as [<-|Hin].
    + simpl. rewrite decide_True by done. f_equal.
      apply elem_of_nil_inv. intros other [Hother Hin]%list_elem_of_filter.
      apply Hfresh. simpl. rewrite Hsymbol, <- Hother.
      by apply (list_elem_of_fmap_2 (λ item, ref_symbol item.2)).
    + rewrite decide_False; [by apply IH|].
      intros Hitem. apply Hfresh. rewrite Hitem, <- Hsymbol.
      by apply (list_elem_of_fmap_2 (λ item, ref_symbol item.2)
                  _ (jump_symbol, product)).
Qed.

Lemma invert_symbols_distinct_witness :
  ({["Crypto.ETH/USD" := "eth"; "Crypto.BTC/USD" := "btc"]}
     : gmap string string) !! "Crypto.BTC/USD" = Some "btc".
Proof.
  apply (invert_symbols_distinct
           [("btc", {| ref_metadata := {["symbol" := "Crypto.BTC/USD"]} |});
            ("eth", {| ref_metadata := {["symbol" := "Crypto.ETH/USD"]} |})]
           {["Crypto.ETH/USD" := "eth"; "Crypto.BTC/USD" := "btc"]}
           "btc" "Crypto.BTC/USD"
           {| ref_metadata := {["symbol" := "Crypto.BTC/USD"]} |}).
  - refine (bool_decide_unpack _ _). vm_compute. exact I.
  - vm_compute. reflexivity.
  - apply elem_of_cons. by left.
  - vm_compute. reflexivity.
Defined.

(** ** [restore_links]: the walk over the mapping list *)

Lemma mapping_links_app links links' :
  mapping_links (links ++ links') = mapping_links links ++ mapping_links links'.
Proof. apply omap_app. Qed.

(** Products that resolve are all linked, without an exception and without
    a mapping link. *)
Lemma restore_products_resolve program_admin jump_symbols product_keys :
  products_resolve program_admin jump_symbols product_keys →
  ∀ links, ∃ links',
    restore_products program_admin jump_symbols product_keys links
    = (links', None)
    ∧ mapping_links links' = mapping_links links.
Proof.
  induction 1 as [|product_key product_keys
                    (product_account & symbol & Haccount & Hsymbol
                     & [jump_symbol Hjump]) _ IH]; intros links; simpl.
  - by exists links.
  - rewrite Haccount, Hsymbol, Hjump.
    destruct (IH (if decide (first_price_account_key
                               (product_data product_account) ≠ 0)
                  then (links ++ [(product_key, product_link jump_symbol)])
                       ++ [(first_price_account_key
                              (product_data product_account),
                            price_link jump_symbol)]
                  else links ++ [(product_key, product_link jump_symbol)]))
      as (links' & Hrun & Hlinks).
    exists links'. split; [done|]. rewrite Hlinks.
    case_decide; rewrite !mapping_links_app; simpl; by rewrite !app_nil_r.
Qed.

(** The walk along a stored chain. *)
Lemma restore_mappings_chain program_admin jump_symbols chain :
  0 ∉ chain →
  Forall (stored_link program_admin jump_symbols) (chain_links chain) →
  ∀ fuel counter links,
    (length chain ≤ fuel)%nat →
    ∃ links',
      restore_mappings fuel program_admin jump_symbols (hd 0 chain)
        counter links
      = Some (links', Completed)
      ∧ mapping_links links'
        = mapping_links links ++ imap (λ i key, (key, counter + i)%nat) chain.
Proof.
  induction chain as [|key rest IH]; intros Hzero Hstored fuel counter links Hfuel.
  - exists links. split; [by destruct fuel|]. by rewrite app_nil_r.
  - apply not_elem_of_cons in Hzero as [Hkey Hzero].
    cbn [chain_links] in Hstored.
    apply Forall_cons in Hstored
      as [(mapping_account & Haccount & Hnext & Hproducts) Hstored].
    simpl in Haccount, Hnext.
    destruct fuel as [|fuel]; [simpl in Hfuel; lia|].
    cbn [hd restore_mappings].
    rewrite decide_True by done. rewrite Haccount.
    destruct (restore_products_resolve _ _ _ Hproducts
                (links ++ [(key, mapping_link counter)]))
      as (links1 & -> & Hlinks1).
    unfold next_key in Hnext. rewrite Hnext.
    destruct (IH Hzero Hstored fuel (S counter) links1) as (links' & -> & Hlinks');
      [simpl in Hfuel; lia|].
    exists links'. split; [done|].
    rewrite Hlinks', Hlinks1, mapping_links_app. simpl.
    rewrite <- app_assoc. simpl. do 2 f_equal.
    + f_equal. lia.
    + apply imap_ext. intros i k _. simpl. f_equal. lia.
Qed.

(** X18. On a stored chain [k1 → ... → kn → 0] of non-zero keys whose
    products all resolve, started at [k1], the loop of [restore_links] ends
    after [n] iterations without an exception, and the keys it links under
    the names [mapping_0], [mapping_1], ... are [k1], [k2], ... in this
    order. *)
Theorem restore_mappings_ordered
    (program_admin : ProgramAdmin) (jump_symbols : gmap string string)
    (chain : list N) (fuel : nat) :
  0 ∉ chain →
  Forall (stored_link program_admin jump_symbols) (chain_links chain) →
  (length chain ≤ fuel)%nat →
  ∃ links,
    restore_mappings fuel program_admin jump_symbols (hd 0 chain) 0 []
    = Some (links, Completed)
    ∧ mapping_links links = imap (λ i key, (key, i)) chain.
Proof.
  intros Hzero Hstored Hfuel.
  destruct (restore_mappings_chain program_admin jump_symbols chain
              Hzero Hstored fuel 0%nat [] Hfuel) as (links & Hrun & Hlinks).
  by exists links.
Qed.

Lemma restore_mappings_ordered_witness :
  ∃ links,
    restore_mappings 2
      {| get_first_mapping_key := Some 5;
         get_mapping_account := λ key,
           if decide (key = 5) then Some (mapping_account 5 6 [])
           else if decide (key = 6) then Some (mapping_account 6 0 [])
           else None;
         get_product_account := λ _, None |}
      ∅ (hd 0 [5; 6]) 0 []
    = Some (links, Completed)
    ∧ mapping_links links = imap (λ i key, (key, i)) [5; 6].
Proof.
  apply restore_mappings_ordered.
  - refine (bool_decide_unpack _ _). vm_compute. exact I.
  - repeat constructor; eexists; (split; [reflexivity|]);
      (split; [reflexivity|constructor]).
  - simpl. lia.
Defined.

(** X19. The loop has no guard against cycles: when the keys reachable from
    the start are all non-zero and stored with products that resolve, it
    never ends, whatever the fuel. *)
Theorem restore_mappings_cycle
    (program_admin : ProgramAdmin) (jump_symbols : gmap string string)
    (reachable : N → Prop) :
  (∀ key, reachable key →
          key ≠ 0 ∧
          ∃ next, stored_link program_admin jump_symbols (key, next)
                  ∧ reachable next) →
  ∀ fuel key counter links,
    reachable key →
    restore_mappings fuel program_admin jump_symbols key counter links = None.
Proof.
  intros Hclosed fuel.
  induction fuel as [|fuel IH]; intros key counter links Hkey;
    destruct (Hclosed key Hkey)
      as (Hne & next & (mapping_account & Haccount & Hnext & Hproducts) & Hreach);
    simpl in *; rewrite decide_True by done; [done|].
  rewrite Haccount.
  destruct (restore_products_resolve _ _ _ Hproducts
              (links ++ [(key, mapping_link counter)])) as (links1 & -> & _).
  unfold next_key in Hnext. rewrite Hnext. by apply IH.
Qed.

Lemma restore_mappings_cycle_witness :
  restore_mappings 7
    {| get_first_mapping_key := Some 5;
       get_mapping_account := λ key,
         if decide (key = 5) then Some (mapping_account 5 6 [])
         else if decide (key = 6) then Some (mapping_account 6 5 [])
         else None;
       get_product_account := λ _, None |}
    ∅ 5 0 []
  = None.
Proof.
  apply (restore_mappings_cycle _ _ (λ key, key = 5 ∨ key = 6)).
  - intros key [->| ->].
    + split; [discriminate|]. exists 6. split; [|by right].
      eexists. split; [reflexivity|]. split; [reflexivity|constructor].
    + split; [discriminate|]. exists 5. split; [|by left].
      eexists. split; [reflexivity|]. split; [reflexivity|constructor].
  - by left.
Defined.

(** X20. The two walks agree.  Let [sort_mapping_account_keys] return a
    non-empty list of distinct non-zero keys for the accounts, and let the
    program hold these accounts under their keys, its first mapping key
    being the head of that list; if the reference products have symbols and
    the products of the accounts resolve, [restore_links] completes and
    links, under [mapping_0], [mapping_1], ..., exactly the returned keys in
    the returned order. *)
Theorem restore_links_follows_sort
    (program_admin : ProgramAdmin)
    (reference_products : list (string * ReferenceProduct))
    (jump_symbols : gmap string string)
    (accounts : list PythMappingAccount)
    (sorted_keys : list N) (sort_fuel fuel : nat) :
  sort_mapping_account_keys sort_fuel accounts = Some (Returned sorted_keys) →
  NoDup sorted_keys →
  0 ∉ sorted_keys →
  sorted_keys ≠ [] →
  invert_symbols reference_products ∅ = inr jump_symbols →
  get_first_mapping_key program_admin = head sorted_keys →
  (∀ account, account ∈ accounts →
     get_mapping_account program_admin (public_key account) = Some account ∧
     products_resolve program_admin jump_symbols
       (product_account_keys (data account))) →
  (length accounts ≤ fuel)%nat →
  ∃ links,
    restore_links fuel program_admin reference_products
    = Some (links, Completed)
    ∧ mapping_links links = imap (λ i key, (key, i)) sorted_keys.
Proof.
  intros Hsort Hnodup Hzero Hne Hinverted Hfirst Hstore Hfuel.
  pose proof (sort_returned_nodup _ _ _ Hsort Hnodup) as Hlinks.
  assert (Forall (stored_link program_admin jump_symbols)
            (chain_links sorted_keys)) as Hstored.
  { apply Forall_forall. intros [key next] Hin.
    rewrite <- Hlinks in Hin.
    apply list_elem_of_fmap in Hin as (account & [= -> ->] & Hin).
    destruct (Hstore account Hin) as [Haccount Hproducts].
    by exists account. }
  assert (length sorted_keys ≤ fuel)%nat as Hfuel'.
  { apply Permutation_length in Hlinks.
    rewrite links_length, chain_links_length in Hlinks. lia. }
  destruct (restore_mappings_chain program_admin jump_symbols sorted_keys
              Hzero Hstored fuel 0%nat [] Hfuel') as (links & Hrun & Hmapping).
  exists links. split; [|done].
  unfold restore_links. rewrite Hinverted, Hfirst.
  destruct sorted_keys as [|key rest]; [done|]. done.
Qed.

Lemma restore_links_follows_sort_witness :
  ∃ links,
    restore_links 2
      {| get_first_mapping_key := Some 5;
         get_mapping_account := λ key,
           if decide (key = 5) then Some (mapping_account 5 6 [])
           else if decide (key = 6) then Some (mapping_account 6 0 [])
           else None;
         get_product_account := λ _, None |}
      []
    = Some (links, Completed)
    ∧ mapping_links links = imap (λ i key, (key, i)) [5; 6].
Proof.
  apply (restore_links_follows_sort _ [] ∅
           [mapping_account 6 0 []; mapping_account 5 6 []] [5; 6] 2 2).
  - reflexivity.
  - refine (bool_decide_unpack _ _). vm_compute. exact I.
  - refine (bool_decide_unpack _ _). vm_compute. exact I.
  - discriminate.
  - reflexivity.
  - reflexivity.
  - intros account [->|[->|Hin%elem_of_nil]%elem_of_cons]%elem_of_cons;
      [| |done]; (split; [reflexivity|constructor]).
  - simpl. lia.
Defined.

(** X21. Different links get different file names: a [mapping_], a
    [product_] and a [price_] name never coincide, whatever the jump symbol,
    and two names of one kind coincide only for the same counter or the
    same jump symbol. *)
Theorem link_file_name_inj (name name' : link_name) :
  link_file_name name = link_file_name name' → name = name'.
Proof.
  destruct name as [counter|jump_symbol|jump_symbol],
           name' as [counter'|jump_symbol'|jump_symbol'];
    simpl; intros Hname; try discriminate.
  - f_equal. apply (inj pretty). by simplify_eq.
  - by simplify_eq.
  - by simplify_eq.
Qed.

Lemma link_file_name_inj_witness : mapping_link 10 = mapping_link 10.
Proof. apply link_file_name_inj. reflexivity. Defined.
